(** * Polarization propagation through a compensated IPS stack

    A shallow embedding of the leakage evaluators ([run_rot_AC.py],
    [run_dispersion_updated.py]) and of the Stokes trace
    ([ips_stokes_trace.py]).

    Python floats are read as real numbers: every statement below is about
    exact arithmetic, rounding is not modelled.  The one exception is the
    module [binary64], which reads the normalized Stokes components over IEEE
    doubles, where a quotient can overflow.  A raised exception is a value of
    [result]. *)

From Stdlib Require Import Floats.
From Stdlib Require Import Reals Lra Psatz List String ZArith.
From stdpp Require Import base option list gmap strings pretty.

Open Scope string_scope.
Open Scope list_scope.
Open Scope R_scope.

(** ** Exceptions *)

Inductive exn : Type :=
| ValueError (msg : string)
| KeyError (key : string)
| ZeroDivisionError.

Inductive result (A : Type) : Type :=
| Ok (a : A)
| Raise (e : exn).

Arguments Ok {A} a.
Arguments Raise {A} e.

Definition bind {A B : Type} (r : result A) (f : A -> result B) : result B :=
  match r with
  | Ok a => f a
  | Raise e => Raise e
  end.

Notation "'do' x <- r ; k" := (bind r (fun x => k))
  (at level 10, x pattern, r at level 100, k at level 200).

(** A [for] loop whose body may raise, collecting one value per item. *)
Fixpoint mapM {A B : Type} (f : A -> result B) (l : list A) : result (list B) :=
  match l with
  | [] => Ok []
  | a :: rest => do b <- f a; do bs <- mapM f rest; Ok (b :: bs)
  end.

(** ** Python arithmetic on floats, read over the reals *)

(** [max(a, b)]: Python returns [a] unless [b > a]. *)
Definition py_max (a b : R) : R := if Rlt_dec a b then b else a.

(** [a / b] on Python floats raises [ZeroDivisionError] when [b] is zero. *)
Definition py_div (a b : R) : result R :=
  if Req_dec_T b 0 then Raise ZeroDivisionError else Ok (a / b).

(** ** Complex numbers *)

Record complex : Type := mkC { re : R; im : R }.

Definition RtoC (x : R) : complex := mkC x 0.
Definition Cadd (a b : complex) : complex := mkC (re a + re b) (im a + im b).
Definition Csub (a b : complex) : complex := mkC (re a - re b) (im a - im b).
Definition Cmul (a b : complex) : complex :=
  mkC (re a * re b - im a * im b) (re a * im b + im a * re b).
Definition Cconj (a : complex) : complex := mkC (re a) (- im a).
(** [abs(z)] *)
Definition Cabs (a : complex) : R := sqrt (re a * re a + im a * im a).

(** ** Arrays of three components *)

Record vec3 : Type := mkV { vx : R; vy : R; vz : R }.
Record cvec3 : Type := mkCV { cx : complex; cy : complex; cz : complex }.
Record cmat3 : Type := mkM { row0 : cvec3; row1 : cvec3; row2 : cvec3 }.

(** [np.dot(a, b)] on two float arrays *)
Definition vdot (a b : vec3) : R := vx a * vx b + vy a * vy b + vz a * vz b.
(** [s * a] *)
Definition vscale (s : R) (a : vec3) : vec3 := mkV (s * vx a) (s * vy a) (s * vz a).
(** [a / s] *)
Definition vdiv (a : vec3) (s : R) : vec3 := mkV (vx a / s) (vy a / s) (vz a / s).
Definition vsub (a b : vec3) : vec3 := mkV (vx a - vx b) (vy a - vy b) (vz a - vz b).
(** [np.cross(a, b)] *)
Definition vcross (a b : vec3) : vec3 :=
  mkV (vy a * vz b - vz a * vy b) (vz a * vx b - vx a * vz b) (vx a * vy b - vy a * vx b).
(** [np.linalg.norm(a)] *)
Definition vnorm (a : vec3) : R := sqrt (vdot a a).

(** [a.astype(complex)] *)
Definition astype_complex (a : vec3) : cvec3 :=
  mkCV (RtoC (vx a)) (RtoC (vy a)) (RtoC (vz a)).
(** [np.dot(E, k)], complex array with float array: no conjugation *)
Definition cdot (E : cvec3) (k : vec3) : complex :=
  Cadd (Cadd (Cmul (cx E) (RtoC (vx k))) (Cmul (cy E) (RtoC (vy k))))
       (Cmul (cz E) (RtoC (vz k))).
(** [np.dot(u, E)], float array with complex array *)
Definition rdot (u : vec3) (E : cvec3) : complex :=
  Cadd (Cadd (Cmul (RtoC (vx u)) (cx E)) (Cmul (RtoC (vy u)) (cy E)))
       (Cmul (RtoC (vz u)) (cz E)).
(** [np.vdot(o, E)]: the first argument is conjugated *)
Definition np_vdot (o : vec3) (E : cvec3) : complex :=
  Cadd (Cadd (Cmul (Cconj (RtoC (vx o))) (cx E)) (Cmul (Cconj (RtoC (vy o))) (cy E)))
       (Cmul (Cconj (RtoC (vz o))) (cz E)).
(** [z * k], complex scalar with float array *)
Definition cscale (z : complex) (k : vec3) : cvec3 :=
  mkCV (Cmul z (RtoC (vx k))) (Cmul z (RtoC (vy k))) (Cmul z (RtoC (vz k))).
Definition cvsub (a b : cvec3) : cvec3 :=
  mkCV (Csub (cx a) (cx b)) (Csub (cy a) (cy b)) (Csub (cz a) (cz b)).
(** complex dot of a matrix row with a complex array *)
Definition crow (r E : cvec3) : complex :=
  Cadd (Cadd (Cmul (cx r) (cx E)) (Cmul (cy r) (cy E))) (Cmul (cz r) (cz E)).
(** [M @ E] *)
Definition matvec (M : cmat3) (E : cvec3) : cvec3 :=
  mkCV (crow (row0 M) E) (crow (row1 M) E) (crow (row2 M) E).

(** The re-projection [E - np.dot(E, k) * k] that follows every operator. *)
Definition reproject (E : cvec3) (k : vec3) : cvec3 := cvsub E (cscale (cdot E k) k).

(** ** Stack elements

    An element is the dict [{"type", "axis", "d", "no", "ne"}]. *)

Record element : Type := mkElement {
  el_type : string;
  el_axis : vec3;
  el_d : R;
  el_no : R;
  el_ne : R
}.

(** ** The engine module [ips_compensation_run_signedC]

    The three scripts import it as [ips]; they only call it, so its members
    are the fields of an interface.  Each field is total: none of the calls
    below is guarded by the callers. *)

Record IpsModule : Type := mkIps {
  k_hat : R -> R -> vec3;
  o_axis_Otype : vec3 -> vec3 -> vec3;
  wl_m : string -> R;
  _ne_no_for_wl : element -> string -> R * R;
  axis_azimuth_deg : vec3 -> R;
  eq3a_Gamma_A : R -> R -> R -> R -> R -> R -> R;
  eq3b_Gamma_C : R -> R -> R -> R -> R -> R;
  retarder_matrix : vec3 -> vec3 -> R -> cmat3;
  CR_from_Tleak : R -> R;
  WL_KEYS : list string;
  WL_NM : gmap string R;
  WL_WEIGHTS : gmap string R;
  DN_SCALE : gmap string (gmap string R);
  DN_SCALE_MATCHED : gmap string (gmap string R);
  DN_SCALE_MISMATCHED : gmap string (gmap string R)
}.

(** The retardation of one element (the [if]/[elif]/[else] on [el["type"]]
    shared by the three propagation loops), given the indices [(no, ne)]
    already chosen for the wavelength. *)
Definition element_Gamma (ips : IpsModule) (theta_deg phi_deg lam : R)
    (el : element) (no ne : R) : result R :=
  if bool_decide (el_type el = "A" \/ el_type el = "LC") then
    let alpha := axis_azimuth_deg ips (el_axis el) in
    let phi_rel := phi_deg - alpha in
    Ok (eq3a_Gamma_A ips theta_deg phi_rel lam (el_d el) no ne)
  else if bool_decide (el_type el = "C") then
    Ok (eq3b_Gamma_C ips theta_deg lam (el_d el) no ne)
  else Raise (ValueError ("Unknown element type: " +:+ el_type el)).

(** [M = ips.retarder_matrix(k, axis, Gamma); E = M @ E; E = E - np.dot(E, k) * k] *)
Definition apply_retarder (ips : IpsModule) (k : vec3) (el : element)
    (Gamma : R) (E : cvec3) : cvec3 :=
  let M := retarder_matrix ips k (el_axis el) Gamma in
  let E1 := matvec M E in
  reproject E1 k.

(** ** [ips_stokes_trace.py] *)

Module ips_stokes_trace.

(** [_normalize(v, eps=1e-15)]: every call leaves [eps] at its default. *)
Definition _normalize (v : vec3) : vec3 :=
  let n := vnorm v in
  vdiv v (py_max n 1e-15).

Definition transverse_basis (ips : IpsModule) (k : vec3) (basis : string)
    (c1 c2 : option vec3) : result (vec3 * vec3) :=
  let k := _normalize k in
  do u <-
    (if bool_decide (basis = "lab") then
       let ref := mkV 1 0 0 in
       let ref := if Rgt_dec (Rabs (vdot ref k)) 0.95 then mkV 0 1 0 else ref in
       Ok (vsub ref (vscale (vdot ref k) k))
     else if bool_decide (basis = "pol_in") then
       match c1 with
       | None => Raise (ValueError "basis='pol_in' requires c1")
       | Some c => Ok (o_axis_Otype ips k c)
       end
     else if bool_decide (basis = "pol_out") then
       match c2 with
       | None => Raise (ValueError "basis='pol_out' requires c2")
       | Some c => Ok (o_axis_Otype ips k c)
       end
     else Raise (ValueError "basis must be one of: lab, pol_in, pol_out"));
  let u := _normalize u in
  let v := _normalize (vcross k u) in
  Ok (u, v).

Definition stokes_from_E (E : cvec3) (k u v : vec3) : R * R * R * R :=
  let k := _normalize k in
  let E := reproject E k in
  let Eu := rdot u E in
  let Ev := rdot v E in
  let S0 := Cabs Eu ^ 2 + Cabs Ev ^ 2 in
  let S1 := Cabs Eu ^ 2 - Cabs Ev ^ 2 in
  let S2 := 2 * re (Cmul Eu (Cconj Ev)) in
  let S3 := 2 * im (Cmul Eu (Cconj Ev)) in
  (S0, S1, S2, S3).

Record StokesPoint : Type := mkStokesPoint {
  label : string;
  wl_key : string;
  S0 : R;
  S1 : R;
  S2 : R;
  S3 : R
}.

Definition s1 (p : StokesPoint) : result R := py_div (S1 p) (py_max (S0 p) 1e-30).
Definition s2 (p : StokesPoint) : result R := py_div (S2 p) (py_max (S0 p) 1e-30).
Definition s3 (p : StokesPoint) : result R := py_div (S3 p) (py_max (S0 p) 1e-30).

(** The dict built by [as_dict]: its two string entries and its seven
    numeric entries, in the order of the literal. *)
Record StokesDict : Type := mkStokesDict {
  d_label : string;
  d_wl_key : string;
  d_nums : list (string * R)
}.

Definition as_dict (p : StokesPoint) : result StokesDict :=
  do a <- s1 p;
  do b <- s2 p;
  do c <- s3 p;
  Ok (mkStokesDict (label p) (wl_key p)
        [("S0", S0 p); ("S1", S1 p); ("S2", S2 p); ("S3", S3 p);
         ("s1", a); ("s2", b); ("s3", c)]).

Definition point_of (lab key : string) (S : R * R * R * R) : StokesPoint :=
  let '(a, b, c, d) := S in mkStokesPoint lab key a b c d.

(** [f"el#{i}_{el['type']}"] *)
Definition element_label (i : nat) (el : element) : string :=
  "el#" +:+ pretty i +:+ "_" +:+ el_type el.

(** The loop [for i, el in enumerate(stack)] for one wavelength key; [i] and
    [E] are the loop state, the result is what the loop appends to [out]. *)
Fixpoint trace_elements (ips : IpsModule) (theta_deg phi_deg : R) (k u v : vec3)
    (key : string) (lam : R) (i : nat) (E : cvec3) (stack : list element)
    : result (list StokesPoint) :=
  match stack with
  | [] => Ok []
  | el :: rest =>
      let '(no, ne) := _ne_no_for_wl ips el key in
      do Gamma <- element_Gamma ips theta_deg phi_deg lam el no ne;
      let E := apply_retarder ips k el Gamma E in
      let p := point_of (element_label i el) key (stokes_from_E E k u v) in
      do ps <- trace_elements ips theta_deg phi_deg k u v key lam (S i) E rest;
      Ok (p :: ps)
  end.

(** The second loop [for wl_key in wl_keys]. *)
Fixpoint trace_wavelengths (ips : IpsModule) (theta_deg phi_deg : R) (k u v : vec3)
    (E0 : cvec3) (stack : list element) (wl_keys : list string)
    : result (list StokesPoint) :=
  match wl_keys with
  | [] => Ok []
  | key :: rest =>
      let lam := wl_m ips key in
      do ps <- trace_elements ips theta_deg phi_deg k u v key lam 0 E0 stack;
      do qs <- trace_wavelengths ips theta_deg phi_deg k u v E0 stack rest;
      Ok (ps ++ qs)
  end.

Definition trace_stokes_per_wavelength (ips : IpsModule) (theta_deg phi_deg : R)
    (stack : list element) (c1 c2 : vec3) (basis : string) (wl_keys : list string)
    : result (list StokesPoint) :=
  let k := k_hat ips theta_deg phi_deg in
  do uv <- transverse_basis ips k basis (Some c1) (Some c2);
  let '(u, v) := uv in
  let o1 := o_axis_Otype ips k c1 in
  let E0 := astype_complex o1 in
  let out := map (fun key => point_of "POL_in" key (stokes_from_E E0 k u v)) wl_keys in
  do rest <- trace_wavelengths ips theta_deg phi_deg k u v E0 stack wl_keys;
  Ok (out ++ rest).

(** The grouping loop of [trace_stokes_white]: labels in first-seen order. *)
Fixpoint group_labels (labels : list string) (pts : list StokesPoint) : list string :=
  match pts with
  | [] => labels
  | p :: rest =>
      group_labels
        (if bool_decide (label p ∈ labels) then labels else labels ++ [label p]) rest
  end.

(** The inner loop [for p in pts] for one label, on the four running sums. *)
Fixpoint stokes_sums (wl_weights : gmap string R) (lab : string)
    (acc : R * R * R * R) (pts : list StokesPoint) : R * R * R * R :=
  match pts with
  | [] => acc
  | p :: rest =>
      if bool_decide (label p <> lab) then stokes_sums wl_weights lab acc rest
      else
        let '(S0t, S1t, S2t, S3t) := acc in
        let w := default 1 (wl_weights !! wl_key p) in
        stokes_sums wl_weights lab
          (S0t + w * S0 p, S1t + w * S1 p, S2t + w * S2 p, S3t + w * S3 p) rest
  end.

Record WhiteRow : Type := mkWhiteRow {
  w_label : string;
  w_S0_sum : R;
  w_s1 : R;
  w_s2 : R;
  w_s3 : R
}.

Definition white_row (wl_weights : gmap string R) (pts : list StokesPoint)
    (lab : string) : result WhiteRow :=
  let '(S0t, S1t, S2t, S3t) := stokes_sums wl_weights lab (0, 0, 0, 0) pts in
  let denom := py_max S0t 1e-30 in
  do a <- py_div S1t denom;
  do b <- py_div S2t denom;
  do c <- py_div S3t denom;
  Ok (mkWhiteRow lab S0t a b c).

Definition trace_stokes_white (ips : IpsModule) (theta_deg phi_deg : R)
    (stack : list element) (c1 c2 : vec3) (basis : string) (wl_keys : list string)
    (wl_weights : option (gmap string R)) : result (list WhiteRow) :=
  let wl_weights := match wl_weights with None => WL_WEIGHTS ips | Some w => w end in
  do pts <- trace_stokes_per_wavelength ips theta_deg phi_deg stack c1 c2 basis wl_keys;
  let labels := group_labels [] pts in
  mapM (white_row wl_weights pts) labels.

End ips_stokes_trace.

(** ** The normalized components over IEEE doubles

    Whether a quotient is finite cannot be said over the reals; the three
    properties of [StokesPoint] are given once more over binary64. *)

Module binary64.

(** [max(a, b)]: [b] when [b > a], else [a] (also when [a] is NaN). *)
Definition py_max (a b : float) : float := if PrimFloat.ltb a b then b else a.

(** [a / b]: [ZeroDivisionError] when [b == 0.0]. *)
Definition py_div (a b : float) : result float :=
  if PrimFloat.eqb b PrimFloat.zero then Raise ZeroDivisionError
  else Ok (PrimFloat.div a b).

(** The double written [1e-30]. *)
Definition eps30 : float := 0x1.4484bfeebc2ap-100%float.
(** The double written [1e300]. *)
Definition huge : float := 0x1.7e43c8800759cp+996%float.

Record StokesPoint : Type := mkStokesPoint {
  label : string;
  wl_key : string;
  S0 : float;
  S1 : float;
  S2 : float;
  S3 : float
}.

Definition s1 (p : StokesPoint) : result float := py_div (S1 p) (py_max (S0 p) eps30).
Definition s2 (p : StokesPoint) : result float := py_div (S2 p) (py_max (S0 p) eps30).
Definition s3 (p : StokesPoint) : result float := py_div (S3 p) (py_max (S0 p) eps30).

End binary64.

(** ** [run_rot_AC.py] *)

Module run_rot_AC.

(** The loop [for el in stack] of [Tleak_single_lambda], on the field [E]. *)
Fixpoint propagate (ips : IpsModule) (theta_deg phi_deg : R) (k : vec3)
    (key : string) (lam : R) (E : cvec3) (stack : list element) : result cvec3 :=
  match stack with
  | [] => Ok E
  | el :: rest =>
      let '(no, ne) := _ne_no_for_wl ips el key in
      do Gamma <- element_Gamma ips theta_deg phi_deg lam el no ne;
      propagate ips theta_deg phi_deg k key lam (apply_retarder ips k el Gamma E) rest
  end.

Definition Tleak_single_lambda (ips : IpsModule) (theta_deg phi_deg : R)
    (stack : list element) (c1 c2 : vec3) (key : string) : result R :=
  let k := k_hat ips theta_deg phi_deg in
  let o1 := o_axis_Otype ips k c1 in
  let o2 := o_axis_Otype ips k c2 in
  let E := astype_complex o1 in
  let lam := wl_m ips key in
  do E <- propagate ips theta_deg phi_deg k key lam E stack;
  let T := Cabs (np_vdot o2 E) ^ 2 in
  Ok T.

End run_rot_AC.

(** ** NumPy routines used by [run_dispersion_updated.py] *)

(** The interval search and the linear formula of [np.interp] for a query
    [x] that is not below the first knot: the knot pair [xp[j] <= x < xp[j+1]]
    is looked for from the left; on the last knot the value is [fp[-1]]. *)
Fixpoint interp_from (x : R) (xp fp : list R) : R :=
  match xp, fp with
  | x0 :: xp', y0 :: fp' =>
      match xp', fp' with
      | x1 :: _, y1 :: _ =>
          if Rlt_dec x x1 then
            if Req_dec_T x0 x then y0
            else (y1 - y0) / (x1 - x0) * (x - x0) + y0
          else interp_from x xp' fp'
      | _, _ => y0
      end
  | _, _ => 0
  end.

(** [np.interp(x, xp, fp, left=l, right=r)] for a scalar [x]. *)
Definition np_interp (x : R) (xp fp : list R) (l r : R) : R :=
  if Rlt_dec x (List.hd 0 xp) then l
  else if Rlt_dec (List.last xp 0) x then r
  else interp_from x xp fp.

(** [math.ceil] *)
Definition ceilZ (x : R) : Z := (1 - up (- x))%Z.

(** [np.arange(start, stop, step)] on floats: [ceil((stop - start) / step)]
    values [start + i * step]; a zero step is a division by zero. *)
Definition np_arange (start stop step : R) : result (list R) :=
  if Req_dec_T step 0 then Raise ZeroDivisionError
  else
    let n := Z.to_nat (ceilZ ((stop - start) / step)) in
    Ok (map (fun i : nat => start + INR i * step) (seq 0 n)).

(** ** [run_dispersion_updated.py] *)

Module run_dispersion_updated.

Definition BGR_WL : list R := [450; 546; 610].

Definition _interp_scale (lam_nm : R) (scale_dict_BGR : gmap string R) : R :=
  let sb := default 1 (scale_dict_BGR !! "B") in
  let sg := default 1 (scale_dict_BGR !! "G") in
  let sr := default 1 (scale_dict_BGR !! "R") in
  let y := [sb; sg; sr] in
  np_interp lam_nm BGR_WL y (List.hd 0 y) (List.last y 0).

Definition ones_BGR : gmap string R := {[ "B" := 1; "G" := 1; "R" := 1 ]}.

Definition _dn_scale_table (ips : IpsModule) (mode : string)
    : result (gmap string (gmap string R)) :=
  if bool_decide (mode = "flat") then
    Ok {[ "LC" := ones_BGR; "A" := ones_BGR; "C" := ones_BGR; "TAC" := ones_BGR ]}
  else if bool_decide (mode = "matched") then Ok (DN_SCALE_MATCHED ips)
  else if bool_decide (mode = "mismatched") then Ok (DN_SCALE_MISMATCHED ips)
  else if bool_decide (mode = "current") then Ok (DN_SCALE ips)
  else Raise (ValueError ("Unknown dispersion mode: " +:+ mode)).

Definition ne_no_for_lambda (ips : IpsModule) (el : element) (lam_nm : R)
    (disp_mode : string) : result (R * R) :=
  let no := el_no el in
  let neG := el_ne el in
  let dnG := neG - no in
  if bool_decide (disp_mode = "flat") then Ok (no, no + dnG)
  else
    do tab <- _dn_scale_table ips disp_mode;
    let t := el_type el in
    let scale_BGR := default ones_BGR (tab !! t) in
    let s := _interp_scale lam_nm scale_BGR in
    Ok (no, no + dnG * s).

(** The loop [for el in stack] of [Tleak_stack_mono]. *)
Fixpoint propagate (ips : IpsModule) (theta_deg phi_deg : R) (k : vec3)
    (lam_nm lam : R) (disp_mode : string) (E : cvec3) (stack : list element)
    : result cvec3 :=
  match stack with
  | [] => Ok E
  | el :: rest =>
      do nn <- ne_no_for_lambda ips el lam_nm disp_mode;
      let '(no, ne) := nn in
      do Gamma <- element_Gamma ips theta_deg phi_deg lam el no ne;
      propagate ips theta_deg phi_deg k lam_nm lam disp_mode
        (apply_retarder ips k el Gamma E) rest
  end.

Definition Tleak_stack_mono (ips : IpsModule) (theta_deg phi_deg : R)
    (stack : list element) (c1 c2 : vec3) (lam_nm : R) (disp_mode : string)
    : result R :=
  let k := k_hat ips theta_deg phi_deg in
  let o1 := o_axis_Otype ips k c1 in
  let o2 := o_axis_Otype ips k c2 in
  let E := astype_complex o1 in
  let lam := lam_nm * 1e-9 in
  do E <- propagate ips theta_deg phi_deg k lam_nm lam disp_mode E stack;
  let T := Cabs (np_vdot o2 E) ^ 2 in
  Ok T.

Definition CR00_mono (ips : IpsModule) (stack : list element) (c1 c2 : vec3)
    (lam_nm : R) (disp_mode : string) : result R :=
  do T <- Tleak_stack_mono ips 0 0 stack c1 c2 lam_nm disp_mode;
  Ok (CR_from_Tleak ips T).

Definition CR_mono (ips : IpsModule) (theta_deg phi_deg : R) (stack : list element)
    (c1 c2 : vec3) (lam_nm : R) (disp_mode : string) : result R :=
  do T <- Tleak_stack_mono ips theta_deg phi_deg stack c1 c2 lam_nm disp_mode;
  Ok (CR_from_Tleak ips T).

(** The loop [for k in wl_keys] of [Tleak_stack_W] on the two running sums;
    [mono] is the call [Tleak_stack_mono(theta_deg, phi_deg, stack, c1, c2,
    lam_nm=lam_nm, disp_mode=disp_mode)], in which only [lam_nm] changes. *)
Fixpoint white_sums (mono : R -> result R) (wl_nm_map wl_weights : gmap string R)
    (Tsum wsum : R) (wl_keys : list string) : result (R * R) :=
  match wl_keys with
  | [] => Ok (Tsum, wsum)
  | k :: rest =>
      do lam_nm <- match wl_nm_map !! k with
                   | Some x => Ok x
                   | None => Raise (KeyError k)
                   end;
      let w := default 1 (wl_weights !! k) in
      do T <- mono lam_nm;
      white_sums mono wl_nm_map wl_weights (Tsum + w * T) (wsum + w) rest
  end.

Definition Tleak_stack_W (ips : IpsModule) (theta_deg phi_deg : R)
    (stack : list element) (c1 c2 : vec3) (disp_mode : string)
    (wl_keys : list string) (wl_nm_map wl_weights : gmap string R) : result R :=
  do sums <- white_sums
      (fun lam_nm => Tleak_stack_mono ips theta_deg phi_deg stack c1 c2 lam_nm disp_mode)
      wl_nm_map wl_weights 0 0 wl_keys;
  let '(Tsum, wsum) := sums in
  py_div Tsum (py_max wsum 1e-30).

(** [CR_W] calls [Tleak_stack_W] with the default wavelength arguments. *)
Definition CR_W (ips : IpsModule) (theta_deg phi_deg : R) (stack : list element)
    (c1 c2 : vec3) (disp_mode : string) : result R :=
  do T <- Tleak_stack_W ips theta_deg phi_deg stack c1 c2 disp_mode
            (WL_KEYS ips) (WL_NM ips) (WL_WEIGHTS ips);
  Ok (CR_from_Tleak ips T).

(** The two nested loops that fill [CR[i, j]], for a cell function [cell]. *)
Definition fill_grid (cell : R -> R -> result R) (thetas phis : list R)
    : result (list (list R)) :=
  mapM (fun th => mapM (fun ph => cell th ph) phis) thetas.

Definition compute_CR_grid_W (ips : IpsModule) (stack : list element) (c1 c2 : vec3)
    (disp_mode : string) (theta_max dtheta dphi : R)
    : result (list R * list R * list (list R)) :=
  do thetas <- np_arange 0 (theta_max + 1e-12) dtheta;
  do phis <- np_arange 0 (360 + 1e-12) dphi;
  do CR <- fill_grid (fun th ph => CR_W ips th ph stack c1 c2 disp_mode) thetas phis;
  Ok (thetas, phis, CR).

Definition compute_CR_grid_mono (ips : IpsModule) (stack : list element) (c1 c2 : vec3)
    (lam_nm : R) (disp_mode : string) (theta_max dtheta dphi : R)
    : result (list R * list R * list (list R)) :=
  do thetas <- np_arange 0 (theta_max + 1e-12) dtheta;
  do phis <- np_arange 0 (360 + 1e-12) dphi;
  do CR <- fill_grid (fun th ph => CR_mono ips th ph stack c1 c2 lam_nm disp_mode)
             thetas phis;
  Ok (thetas, phis, CR).

End run_dispersion_updated.

(** ** The parts of the engine module that the design document fixes *)

(** Modelled from the spec: [k_hat] of the missing module
    [ips_compensation_run_signedC] (section 4.1: standard spherical-to-Cartesian
    conversion, theta from the normal, phi the azimuth, both in degrees). *)
Definition spec_k_hat (theta_deg phi_deg : R) : vec3 :=
  let t := theta_deg * PI / 180 in
  let p := phi_deg * PI / 180 in
  mkV (sin t * cos p) (sin t * sin p) (cos t).

(** Modelled from the spec: [o_axis_Otype] ([pass_axis]) of the missing module
    (section 4.1: project [c] onto the plane transverse to [k] and normalize;
    the case [c] parallel to [k] is not special-cased). *)
Definition spec_pass_axis (k c : vec3) : vec3 :=
  let p := vsub c (vscale (vdot c k) k) in
  vdiv p (vnorm p).

Definition Cone : complex := RtoC 1.
Definition Czero : complex := RtoC 0.

Definition identity_matrix : cmat3 :=
  mkM (mkCV Cone Czero Czero) (mkCV Czero Cone Czero) (mkCV Czero Czero Cone).

(** Modelled from the spec: the missing engine module with the geometry of
    section 4.1.  The design document gives no closed form for the oblique
    retardance formulas, the operator's phase split, the dispersion tables or
    the default wavelength set; these members are filled with the
    zero-retardation case (no phase, identity operator, indices unchanged,
    empty tables).  The closed examples below use this instance on empty
    stacks, or for statements that hold whatever the operator is. *)
Definition ips_spec : IpsModule := {|
  k_hat := spec_k_hat;
  o_axis_Otype := spec_pass_axis;
  wl_m := fun _ => 546e-9;
  _ne_no_for_wl := fun el _ => (el_no el, el_ne el);
  axis_azimuth_deg := fun _ => 0;
  eq3a_Gamma_A := fun _ _ _ _ _ _ => 0;
  eq3b_Gamma_C := fun _ _ _ _ _ => 0;
  retarder_matrix := fun _ _ _ => identity_matrix;
  CR_from_Tleak := fun T => 1 / py_max T 1e-30;
  WL_KEYS := ["B"; "G"; "R"];
  WL_NM := {[ "B" := 450; "G" := 546; "R" := 610 ]};
  WL_WEIGHTS := ∅;
  DN_SCALE := ∅;
  DN_SCALE_MATCHED := ∅;
  DN_SCALE_MISMATCHED := ∅
|}.

(** ** Vocabulary of the statements *)

(** The weighted average [sum w_k T_k / sum w_k] of leakages [Ts] under
    weights [ws]. *)
Definition weighted_sum (ws Ts : list R) : R :=
  fold_right Rplus 0 (zip_with Rmult ws Ts).
Definition total_weight (ws : list R) : R := fold_right Rplus 0 ws.
Definition weighted_average (ws Ts : list R) : R :=
  weighted_sum ws Ts / total_weight ws.

(** The weights the white loop reads for a list of keys. *)
Definition weights_of (wl_weights : gmap string R) (wl_keys : list string) : list R :=
  map (fun k => default 1 (wl_weights !! k)) wl_keys.

(** The scale factor in the words of the design document: linear between the
    primaries 450, 546 and 610 nm, constant below 450 nm and above 610 nm. *)
Definition piecewise_scale (sB sG sR lam : R) : R :=
  if Rle_dec lam 450 then sB
  else if Rle_dec lam 546 then sB + (sG - sB) * (lam - 450) / (546 - 450)
  else if Rle_dec lam 610 then sG + (sR - sG) * (lam - 546) / (610 - 546)
  else sR.

(** The per-primary factors of an element type in a table, 1.0 when absent. *)
Definition factor (tab : gmap string (gmap string R)) (t key : string) : R :=
  default 1 (default run_dispersion_updated.ones_BGR (tab !! t) !! key).

(** A type token of the closed set. *)
Definition recognized (el : element) : bool :=
  bool_decide (el_type el = "A" \/ el_type el = "LC" \/ el_type el = "C").

(** The first element of the stack whose token is outside the closed set. *)
Definition first_unknown (stack : list element) : option element :=
  List.find (fun el => negb (recognized el)) stack.

Definition unknown_type_error (el : element) : exn :=
  ValueError ("Unknown element type: " +:+ el_type el).

(** A right-handed orthonormal basis [(u, v)] of the plane transverse to [k]. *)
Definition right_handed_transverse (k u v : vec3) : Prop :=
  vnorm u = 1 /\ vnorm v = 1 /\ vdot u v = 0 /\ vdot u k = 0 /\ vdot v k = 0 /\
  v = vcross k u /\ vdot k (vcross u v) = 1.

(** [|S1|], [|S2|] and [|S3|] do not exceed [S0]. *)
Definition within_intensity (p : ips_stokes_trace.StokesPoint) : Prop :=
  (- ips_stokes_trace.S0 p <= ips_stokes_trace.S1 p <= ips_stokes_trace.S0 p) /\
  (- ips_stokes_trace.S0 p <= ips_stokes_trace.S2 p <= ips_stokes_trace.S0 p) /\
  (- ips_stokes_trace.S0 p <= ips_stokes_trace.S3 p <= ips_stokes_trace.S0 p).

(** The three normalized entries of a white row lie in [[-1, 1]]. *)
Definition row_normalized (r : ips_stokes_trace.WhiteRow) : Prop :=
  (-1 <= ips_stokes_trace.w_s1 r <= 1) /\
  (-1 <= ips_stokes_trace.w_s2 r <= 1) /\
  (-1 <= ips_stokes_trace.w_s3 r <= 1).

(** The four running sums keep [|S1t|, |S2t|, |S3t| <= S0t]. *)
Definition sums_within (acc : R * R * R * R) : Prop :=
  let '(A, B, C, D) := acc in - A <= B <= A /\ - A <= C <= A /\ - A <= D <= A.

(** No weight of the dict is negative. *)
Definition nonnegative_weights (w : gmap string R) : Prop :=
  forall (k : string) (x : R), w !! k = Some x -> 0 <= x.

(** The normalized Stokes components and the white rows in closed form. *)
Definition floor30 (x : R) : R := Rmax x 1e-30.

Definition white_row_closed (wl_weights : gmap string R)
    (pts : list ips_stokes_trace.StokesPoint) (lab : string)
    : ips_stokes_trace.WhiteRow :=
  let '(S0t, S1t, S2t, S3t) :=
    ips_stokes_trace.stokes_sums wl_weights lab (0, 0, 0, 0) pts in
  ips_stokes_trace.mkWhiteRow lab S0t
    (S1t / floor30 S0t) (S2t / floor30 S0t) (S3t / floor30 S0t).

(** An outcome that is not a division error. *)
Definition no_division_error {A : Type} (r : result A) : Prop :=
  r <> Raise ZeroDivisionError.

(** [Ts] are the monochromatic leakages at the wavelengths of [wl_keys]. *)
Definition leakages_at (mono : R -> result R) (wl_nm_map : gmap string R)
    (wl_keys : list string) (Ts : list R) : Prop :=
  Forall2 (fun k T => exists lam_nm, wl_nm_map !! k = Some lam_nm /\ mono lam_nm = Ok T)
    wl_keys Ts.

(** The projection of [c] on the plane transverse to [k]. *)
Definition transverse_part (k c : vec3) : vec3 := vsub c (vscale (vdot c k) k).

(** The stage points of one wavelength key: one per element, labelled
    [el#i_type] with the element's index and token. *)
Definition element_stages (stack : list element) (key : string)
    (ps : list ips_stokes_trace.StokesPoint) : Prop :=
  length ps = length stack /\
  forall (i : nat) (el : element),
    stack !! i = Some el ->
    exists p, ps !! i = Some p /\
      ips_stokes_trace.label p = ips_stokes_trace.element_label i el /\
      ips_stokes_trace.wl_key p = key.

(** The weighted intensity sum over the points that carry a label: a
    weight missing from the dict counts as 1. *)
Fixpoint labelled_intensity (w : gmap string R) (lab : string)
    (pts : list ips_stokes_trace.StokesPoint) : R :=
  match pts with
  | [] => 0
  | p :: rest =>
      if bool_decide (ips_stokes_trace.label p = lab)
      then default 1 (w !! ips_stokes_trace.wl_key p) * ips_stokes_trace.S0 p
           + labelled_intensity w lab rest
      else labelled_intensity w lab rest
  end.

(** The four dispersion-mode keys. *)
Definition known_mode (mode : string) : Prop :=
  mode = "flat" \/ mode = "matched" \/ mode = "mismatched" \/ mode = "current".

(** ** Inputs of the closed examples *)

Definition x_hat : vec3 := mkV 1 0 0.
Definition y_hat : vec3 := mkV 0 1 0.
Definition z_hat : vec3 := mkV 0 0 1.

(** An element whose type token is outside the closed set. *)
Definition element_X : element := mkElement "X" x_hat 0 1.5 1.6.

(** A single green sample with a total weight below the floor [1e-30]. *)
Definition tiny_weights : gmap string R := {[ "G" := 1e-31 ]}.
Definition green_only : gmap string R := {[ "G" := 546 ]}.

(** A stored point with no intensity and a huge [S1], and one whose
    intensity is NaN. *)
Definition dark_huge_point : binary64.StokesPoint :=
  binary64.mkStokesPoint "POL_in" "G" PrimFloat.zero binary64.huge
    PrimFloat.zero PrimFloat.zero.
Definition nan_point : binary64.StokesPoint :=
  binary64.mkStokesPoint "POL_in" "G" PrimFloat.nan PrimFloat.one
    PrimFloat.zero PrimFloat.zero.

(** A fully polarized point, as the trace derives them. *)
Definition linear_point : ips_stokes_trace.StokesPoint :=
  ips_stokes_trace.mkStokesPoint "POL_in" "G" 1 1 0 0.

(** An A plate of the closed set. *)
Definition element_A : element := mkElement "A" x_hat 1e-6 1.5 1.6.

(** The weights of the worked example of the design document. *)
Definition example_weights : gmap string R := {[ "B" := 1; "G" := 2; "R" := 1 ]}.

(** * Properties *)

(** ** Arithmetic helpers *)

Lemma py_max_Rmax a b : py_max a b = Rmax a b.
Proof.
  unfold py_max, Rmax.
  destruct (Rlt_dec a b), (Rle_dec a b); lra.
Qed.

Lemma py_max_floor a b : b <= py_max a b /\ a <= py_max a b.
Proof. unfold py_max. destruct (Rlt_dec a b); lra. Qed.

Lemma py_max_left a b : b <= a -> py_max a b = a.
Proof. unfold py_max. destruct (Rlt_dec a b); lra. Qed.

Lemma py_max_right a b : a < b -> py_max a b = b.
Proof. unfold py_max. destruct (Rlt_dec a b); lra. Qed.

Lemma py_div_nonzero a b : b <> 0 -> py_div a b = Ok (a / b).
Proof. intros H. unfold py_div. destruct (Req_dec_T b 0); [lra | reflexivity]. Qed.

Lemma py_div_floor a x eps : 0 < eps -> py_div a (py_max x eps) = Ok (a / Rmax x eps).
Proof.
  intros H. rewrite py_div_nonzero, py_max_Rmax; [reflexivity |].
  destruct (py_max_floor x eps). lra.
Qed.

Lemma Cabs_sq z : Cabs z ^ 2 = re z * re z + im z * im z.
Proof.
  unfold Cabs. simpl. rewrite Rmult_1_r. apply sqrt_sqrt. nra.
Qed.

Lemma complex_eq a b : re a = re b -> im a = im b -> a = b.
Proof. destruct a, b; simpl; intros -> ->; reflexivity. Qed.

Lemma vec3_eq a b : vx a = vx b -> vy a = vy b -> vz a = vz b -> a = b.
Proof. destruct a, b; simpl; intros -> -> ->; reflexivity. Qed.

Lemma vnorm_sq a : vnorm a * vnorm a = vdot a a.
Proof. unfold vnorm. apply sqrt_sqrt. unfold vdot. nra. Qed.

Lemma vnorm_nonneg a : 0 <= vnorm a.
Proof. apply sqrt_pos. Qed.

Lemma vnorm_one a : vdot a a = 1 -> vnorm a = 1.
Proof. intros H. unfold vnorm. rewrite H. apply sqrt_1. Qed.

Lemma vnorm_one_dot a : vnorm a = 1 -> vdot a a = 1.
Proof. intros H. rewrite <- vnorm_sq, H. lra. Qed.

Lemma vdiv_one a : vdiv a 1 = a.
Proof. apply vec3_eq; simpl; field. Qed.

(** ** [_normalize] *)

Lemma _normalize_unit k : vnorm k = 1 -> ips_stokes_trace._normalize k = k.
Proof.
  intros H. unfold ips_stokes_trace._normalize. rewrite H.
  rewrite py_max_left by lra. apply vdiv_one.
Qed.

Lemma _normalize_large a :
  1e-15 <= vnorm a -> vnorm (ips_stokes_trace._normalize a) = 1.
Proof.
  intros H. unfold ips_stokes_trace._normalize.
  rewrite py_max_left by lra.
  apply vnorm_one. unfold vdot, vdiv; simpl.
  pose proof (vnorm_sq a) as Hs. unfold vdot in Hs.
  assert (Hn : vnorm a <> 0) by lra.
  field_simplify_eq; [|exact Hn]. nra.
Qed.

(** ** Stokes parameters *)

(** C2: for a unit direction [k], [stokes_from_E] replaces [E] by
    [E - (E.k)k], forms the complex scalars [Eu = u.E] and [Ev = v.E], and
    returns [S0 = |Eu|^2 + |Ev|^2], [S1 = |Eu|^2 - |Ev|^2],
    [S2 = 2 Re(Eu conj(Ev))], [S3 = 2 Im(Eu conj(Ev))]. *)
Theorem stokes_from_E_formula (E : cvec3) (k u v : vec3) :
  vnorm k = 1 ->
  let E' := cvsub E (cscale (cdot E k) k) in
  let Eu := rdot u E' in
  let Ev := rdot v E' in
  ips_stokes_trace.stokes_from_E E k u v =
    (Cabs Eu ^ 2 + Cabs Ev ^ 2,
     Cabs Eu ^ 2 - Cabs Ev ^ 2,
     2 * re (Cmul Eu (Cconj Ev)),
     2 * im (Cmul Eu (Cconj Ev))).
Proof.
  intros Hk E' Eu Ev.
  unfold ips_stokes_trace.stokes_from_E.
  rewrite (_normalize_unit k Hk). reflexivity.
Qed.

Lemma vnorm_ez : vnorm (mkV 0 0 1) = 1.
Proof. apply vnorm_one. unfold vdot; simpl. ring. Qed.

Lemma stokes_from_E_formula_witness :
  vnorm (mkV 0 0 1) = 1 /\
  ips_stokes_trace.stokes_from_E (mkCV (mkC 1 2) (mkC 3 4) (mkC 5 6))
    (mkV 0 0 1) (mkV 1 0 0) (mkV 0 1 0) =
  (let E' := cvsub (mkCV (mkC 1 2) (mkC 3 4) (mkC 5 6))
               (cscale (cdot (mkCV (mkC 1 2) (mkC 3 4) (mkC 5 6)) (mkV 0 0 1))
                  (mkV 0 0 1)) in
   let Eu := rdot (mkV 1 0 0) E' in
   let Ev := rdot (mkV 0 1 0) E' in
   (Cabs Eu ^ 2 + Cabs Ev ^ 2, Cabs Eu ^ 2 - Cabs Ev ^ 2,
    2 * re (Cmul Eu (Cconj Ev)), 2 * im (Cmul Eu (Cconj Ev)))).
Proof.
  split; [exact vnorm_ez |].
  apply (stokes_from_E_formula _ _ _ _ vnorm_ez).
Defined.

Lemma stokes_polarized (Eu Ev : complex) :
  let S0 := Cabs Eu ^ 2 + Cabs Ev ^ 2 in
  let S1 := Cabs Eu ^ 2 - Cabs Ev ^ 2 in
  let S2 := 2 * re (Cmul Eu (Cconj Ev)) in
  let S3 := 2 * im (Cmul Eu (Cconj Ev)) in
  0 <= S0 /\ S1 * S1 + S2 * S2 + S3 * S3 = S0 * S0.
Proof.
  intros S0 S1 S2 S3. subst S0 S1 S2 S3.
  rewrite !Cabs_sq. destruct Eu as [a b], Ev as [c d]; simpl.
  split; [nra | ring].
Qed.

Lemma normalized_in_unit_interval (S0 Si : R) :
  0 <= S0 -> Si * Si <= S0 * S0 ->
  -1 <= Si / Rmax S0 1e-30 <= 1.
Proof.
  intros H0 Hsq.
  assert (Hm : S0 <= Rmax S0 1e-30) by apply Rmax_l.
  assert (Hp : 1e-30 <= Rmax S0 1e-30) by apply Rmax_r.
  set (m := Rmax S0 1e-30) in *.
  assert (Hpos : 0 < m) by lra.
  assert (Hab : - S0 <= Si <= S0) by nra.
  split.
  - apply Rmult_le_reg_r with m; [exact Hpos |].
    unfold Rdiv. rewrite Rmult_assoc, Rinv_l by lra. lra.
  - apply Rmult_le_reg_r with m; [exact Hpos |].
    unfold Rdiv. rewrite Rmult_assoc, Rinv_l by lra. lra.
Qed.

Lemma stokes_from_E_shape (E : cvec3) (k u v : vec3) :
  exists Eu Ev : complex,
    ips_stokes_trace.stokes_from_E E k u v =
      (Cabs Eu ^ 2 + Cabs Ev ^ 2, Cabs Eu ^ 2 - Cabs Ev ^ 2,
       2 * re (Cmul Eu (Cconj Ev)), 2 * im (Cmul Eu (Cconj Ev))).
Proof. eexists _, _. reflexivity. Qed.

(** C10: the quadruple returned by [stokes_from_E] has [S0 >= 0] and
    [S1^2 + S2^2 + S3^2 = S0^2]; the normalized components of the point built
    from it are returned without error and lie in [[-1, 1]]. *)
Theorem stokes_fully_polarized (E : cvec3) (k u v : vec3) (lab key : string) :
  let p := ips_stokes_trace.point_of lab key (ips_stokes_trace.stokes_from_E E k u v) in
  0 <= ips_stokes_trace.S0 p /\
  ips_stokes_trace.S1 p ^ 2 + ips_stokes_trace.S2 p ^ 2 + ips_stokes_trace.S3 p ^ 2
    = ips_stokes_trace.S0 p ^ 2 /\
  exists a b c,
    ips_stokes_trace.s1 p = Ok a /\ ips_stokes_trace.s2 p = Ok b /\
    ips_stokes_trace.s3 p = Ok c /\
    -1 <= a <= 1 /\ -1 <= b <= 1 /\ -1 <= c <= 1.
Proof.
  destruct (stokes_from_E_shape E k u v) as (Eu & Ev & ->).
  destruct (stokes_polarized Eu Ev) as [H0 Hid].
  cbv zeta in H0, Hid.
  set (A := Cabs Eu ^ 2 + Cabs Ev ^ 2) in *.
  set (B := Cabs Eu ^ 2 - Cabs Ev ^ 2) in *.
  set (C := 2 * re (Cmul Eu (Cconj Ev))) in *.
  set (D := 2 * im (Cmul Eu (Cconj Ev))) in *.
  unfold ips_stokes_trace.point_of.
  unfold ips_stokes_trace.s1, ips_stokes_trace.s2, ips_stokes_trace.s3.
  cbn [ips_stokes_trace.S0 ips_stokes_trace.S1 ips_stokes_trace.S2 ips_stokes_trace.S3].
  split; [exact H0 |]. split; [lra |].
  rewrite !py_div_floor by lra.
  assert (HB : B * B <= A * A) by nra.
  assert (HC : C * C <= A * A) by nra.
  assert (HD : D * D <= A * A) by nra.
  do 3 eexists. repeat split; try reflexivity;
    apply normalized_in_unit_interval; assumption.
Qed.

(** ** Loops that cannot raise *)

Lemma mapM_total {A B : Type} (f : A -> result B) (g : A -> B) (l : list A) :
  (forall a, f a = Ok (g a)) -> mapM f l = Ok (map g l).
Proof.
  intros H. induction l as [|a l IH]; simpl; [reflexivity |].
  rewrite H, IH. reflexivity.
Qed.

Lemma no_division_error_bind {A B : Type} (r : result A) (f : A -> result B) :
  no_division_error r -> (forall a, no_division_error (f a)) ->
  no_division_error (bind r f).
Proof.
  unfold no_division_error. intros Hr Hf. destruct r as [a|e]; simpl.
  - apply Hf.
  - intros Heq. apply Hr. injection Heq as ->. reflexivity.
Qed.

Lemma no_division_error_Ok {A : Type} (a : A) : no_division_error (Ok a).
Proof. discriminate. Qed.

Lemma element_Gamma_no_division_error ips th ph lam el no ne :
  no_division_error (element_Gamma ips th ph lam el no ne).
Proof.
  unfold element_Gamma. repeat case_bool_decide; discriminate.
Qed.

Lemma transverse_basis_no_division_error ips k basis c1 c2 :
  no_division_error (ips_stokes_trace.transverse_basis ips k basis c1 c2).
Proof.
  unfold ips_stokes_trace.transverse_basis.
  apply no_division_error_bind; [| intros; apply no_division_error_Ok].
  repeat case_bool_decide; try discriminate.
  - destruct c1; discriminate.
  - destruct c2; discriminate.
Qed.

Lemma trace_elements_no_division_error ips th ph k u v key lam i E stack :
  no_division_error (ips_stokes_trace.trace_elements ips th ph k u v key lam i E stack).
Proof.
  revert i E. induction stack as [|el rest IH]; intros i E; simpl.
  - apply no_division_error_Ok.
  - destruct (_ne_no_for_wl ips el key) as [no ne].
    apply no_division_error_bind; [apply element_Gamma_no_division_error |].
    intros G. apply no_division_error_bind; [apply IH |].
    intros; apply no_division_error_Ok.
Qed.

Lemma trace_wavelengths_no_division_error ips th ph k u v E0 stack keys :
  no_division_error (ips_stokes_trace.trace_wavelengths ips th ph k u v E0 stack keys).
Proof.
  induction keys as [|key rest IH]; simpl.
  - apply no_division_error_Ok.
  - apply no_division_error_bind; [apply trace_elements_no_division_error |].
    intros ps. apply no_division_error_bind; [apply IH |].
    intros; apply no_division_error_Ok.
Qed.

Lemma white_row_total wl_weights pts lab :
  ips_stokes_trace.white_row wl_weights pts lab = Ok (white_row_closed wl_weights pts lab).
Proof.
  unfold ips_stokes_trace.white_row, white_row_closed, floor30.
  destruct (ips_stokes_trace.stokes_sums wl_weights lab (0, 0, 0, 0) pts)
    as [[[S0t S1t] S2t] S3t].
  cbv zeta. rewrite !py_div_floor by lra. reflexivity.
Qed.

Lemma quotient_in_unit_interval (A Si : R) :
  - A <= Si <= A -> -1 <= Si / Rmax A 1e-30 <= 1.
Proof. intros H. apply normalized_in_unit_interval; nra. Qed.

Lemma quotient_magnitude (A Si : R) :
  Rabs (Si / Rmax A 1e-30) <= Rabs Si / 1e-30.
Proof.
  assert (Hp : 1e-30 <= Rmax A 1e-30) by apply Rmax_r.
  set (m := Rmax A 1e-30) in *.
  unfold Rdiv. rewrite Rabs_mult.
  rewrite (Rabs_pos_eq (/ m)) by (left; apply Rinv_0_lt_compat; lra).
  apply Rmult_le_compat_l; [apply Rabs_pos |].
  apply Rinv_le_contravar; lra.
Qed.

Lemma stokes_point_within_intensity (E : cvec3) (k u v : vec3) (lab key : string) :
  within_intensity
    (ips_stokes_trace.point_of lab key (ips_stokes_trace.stokes_from_E E k u v)).
Proof.
  destruct (stokes_from_E_shape E k u v) as (Eu & Ev & ->).
  destruct (stokes_polarized Eu Ev) as [H0 Hid]. cbv zeta in H0, Hid.
  set (A := Cabs Eu ^ 2 + Cabs Ev ^ 2) in *.
  set (B := Cabs Eu ^ 2 - Cabs Ev ^ 2) in *.
  set (C := 2 * re (Cmul Eu (Cconj Ev))) in *.
  set (D := 2 * im (Cmul Eu (Cconj Ev))) in *.
  unfold within_intensity, ips_stokes_trace.point_of.
  cbn [ips_stokes_trace.S0 ips_stokes_trace.S1 ips_stokes_trace.S2 ips_stokes_trace.S3].
  repeat split; nra.
Qed.

Lemma trace_elements_within ips th ph k u v key lam stack :
  forall i E ps,
  ips_stokes_trace.trace_elements ips th ph k u v key lam i E stack = Ok ps ->
  Forall within_intensity ps.
Proof.
  induction stack as [|el rest IH]; intros i E ps Hrun; simpl in Hrun.
  - injection Hrun as <-. constructor.
  - destruct (_ne_no_for_wl ips el key) as [no ne].
    destruct (element_Gamma ips th ph lam el no ne) as [G|e]; simpl in Hrun;
      [| discriminate].
    destruct (ips_stokes_trace.trace_elements ips th ph k u v key lam (S i)
                (apply_retarder ips k el G E) rest) as [ps'|e] eqn:Hrest;
      simpl in Hrun; [| discriminate].
    injection Hrun as <-. constructor.
    + apply stokes_point_within_intensity.
    + apply (IH _ _ _ Hrest).
Qed.

Lemma trace_wavelengths_within ips th ph k u v E0 stack keys :
  forall ps,
  ips_stokes_trace.trace_wavelengths ips th ph k u v E0 stack keys = Ok ps ->
  Forall within_intensity ps.
Proof.
  induction keys as [|key rest IH]; intros ps Hrun; simpl in Hrun.
  - injection Hrun as <-. constructor.
  - destruct (ips_stokes_trace.trace_elements ips th ph k u v key (wl_m ips key)
                0%nat E0 stack) as [qs|e] eqn:Hq; simpl in Hrun; [| discriminate].
    destruct (ips_stokes_trace.trace_wavelengths ips th ph k u v E0 stack rest)
      as [rs|e] eqn:Hr; simpl in Hrun; [| discriminate].
    injection Hrun as <-. apply Forall_app. split.
    + apply (trace_elements_within _ _ _ _ _ _ _ _ _ _ _ _ Hq).
    + apply IH. reflexivity.
Qed.

Lemma trace_within ips th ph stack c1 c2 basis keys pts :
  ips_stokes_trace.trace_stokes_per_wavelength ips th ph stack c1 c2 basis keys = Ok pts ->
  Forall within_intensity pts.
Proof.
  unfold ips_stokes_trace.trace_stokes_per_wavelength. intros Hrun.
  destruct (ips_stokes_trace.transverse_basis ips (k_hat ips th ph) basis (Some c1)
              (Some c2)) as [[u v]|e]; simpl in Hrun; [| discriminate].
  destruct (ips_stokes_trace.trace_wavelengths ips th ph (k_hat ips th ph) u v
              (astype_complex (o_axis_Otype ips (k_hat ips th ph) c1)) stack keys)
    as [rest|e] eqn:Hrest; simpl in Hrun; [| discriminate].
  injection Hrun as <-. apply Forall_app. split.
  - apply Forall_forall. intros p Hp. apply list_elem_of_In, in_map_iff in Hp.
    destruct Hp as (key & <- & _). apply stokes_point_within_intensity.
  - apply (trace_wavelengths_within _ _ _ _ _ _ _ _ _ _ Hrest).
Qed.

Lemma stokes_sums_within (w : gmap string R) (lab : string)
    (pts : list ips_stokes_trace.StokesPoint) :
  nonnegative_weights w -> Forall within_intensity pts ->
  forall acc, sums_within acc ->
  sums_within (ips_stokes_trace.stokes_sums w lab acc pts).
Proof.
  intros Hw Hpts. induction Hpts as [|p pts Hp _ IH]; intros acc Hacc; simpl.
  - exact Hacc.
  - case_bool_decide; [apply IH, Hacc |].
    destruct acc as [[[A B] C] D]. apply IH.
    assert (Hx : 0 <= default 1 (w !! ips_stokes_trace.wl_key p)).
    { destruct (w !! ips_stokes_trace.wl_key p) as [x|] eqn:Hl; simpl;
        [apply (Hw _ _ Hl) | lra]. }
    set (x := default 1 (w !! ips_stokes_trace.wl_key p)) in *.
    destruct Hp as (H1 & H2 & H3). destruct Hacc as (Ha & Hb & Hc).
    unfold sums_within. repeat split; nra.
Qed.

Lemma white_row_closed_normalized (w : gmap string R)
    (pts : list ips_stokes_trace.StokesPoint) (lab : string) :
  nonnegative_weights w -> Forall within_intensity pts ->
  row_normalized (white_row_closed w pts lab).
Proof.
  intros Hw Hpts.
  assert (H0 : sums_within (0, 0, 0, 0)) by (unfold sums_within; lra).
  pose proof (stokes_sums_within w lab pts Hw Hpts _ H0) as Hs.
  unfold white_row_closed, floor30.
  destruct (ips_stokes_trace.stokes_sums w lab (0, 0, 0, 0) pts) as [[[A B] C] D].
  destruct Hs as (Hb & Hc & Hd). unfold row_normalized.
  cbn [ips_stokes_trace.w_s1 ips_stokes_trace.w_s2 ips_stokes_trace.w_s3].
  repeat split; apply quotient_in_unit_interval; assumption.
Qed.

Lemma white_trace_closed ips th ph stack c1 c2 basis keys w :
  ips_stokes_trace.trace_stokes_white ips th ph stack c1 c2 basis keys (Some w)
  = (do pts <- ips_stokes_trace.trace_stokes_per_wavelength ips th ph stack c1 c2
                 basis keys;
     Ok (map (white_row_closed w pts) (ips_stokes_trace.group_labels [] pts))).
Proof.
  unfold ips_stokes_trace.trace_stokes_white.
  destruct (ips_stokes_trace.trace_stokes_per_wavelength _ _ _ _ _ _ _ _)
    as [pts|e]; simpl; [| reflexivity].
  apply mapM_total. intros lab. apply white_row_total.
Qed.

(** Over doubles the floored denominator is never zero. *)
Lemma binary64_floor_nonzero (a : float) :
  PrimFloat.eqb (binary64.py_max a binary64.eps30) PrimFloat.zero = false.
Proof.
  unfold binary64.py_max.
  destruct (PrimFloat.ltb a binary64.eps30) eqn:Hlt; [reflexivity |].
  destruct (PrimFloat.eqb a PrimFloat.zero) eqn:Heq; [| reflexivity].
  exfalso. rewrite FloatAxioms.ltb_spec in Hlt. rewrite FloatAxioms.eqb_spec in Heq.
  destruct (Prim2SF a) as [s | s | | s m e].
  - vm_compute in Hlt. discriminate.
  - vm_compute in Heq. destruct s; discriminate.
  - vm_compute in Heq. discriminate.
  - vm_compute in Heq. destruct s; discriminate.
Qed.

Lemma binary64_py_div_floor (x a : float) :
  binary64.py_div x (binary64.py_max a binary64.eps30)
  = Ok (PrimFloat.div x (binary64.py_max a binary64.eps30)).
Proof. unfold binary64.py_div. rewrite binary64_floor_nonzero. reflexivity. Qed.

(** C7 (amended): the denominators of the normalized Stokes components and
    of the white rows are floored at [1e-30] instead of raising: every
    [StokesPoint] (also one with [S0 = 0]) has
    [(s1, s2, s3) = (S1, S2, S3) / max(S0, 1e-30)], every white row divides its
    weighted sums by [max(S0_sum, 1e-30)], and no division error is raised,
    over the reals and over doubles.  The quotients lie in [[-1, 1]] when
    [|Si| <= S0], as for every point of the trace and, under non-negative
    weights, every white row; for other stored values they are bounded by
    [|Si| / 1e-30]. *)
Theorem stokes_denominators_floored :
  (forall x : R, 0 < 1e-30 /\ 1e-30 <= py_max x 1e-30) /\
  (forall p : ips_stokes_trace.StokesPoint,
     ips_stokes_trace.s1 p
       = Ok (ips_stokes_trace.S1 p / Rmax (ips_stokes_trace.S0 p) 1e-30) /\
     ips_stokes_trace.s2 p
       = Ok (ips_stokes_trace.S2 p / Rmax (ips_stokes_trace.S0 p) 1e-30) /\
     ips_stokes_trace.s3 p
       = Ok (ips_stokes_trace.S3 p / Rmax (ips_stokes_trace.S0 p) 1e-30)) /\
  (forall (ips : IpsModule) (theta_deg phi_deg : R) (stack : list element)
          (c1 c2 : vec3) (basis : string) (wl_keys : list string)
          (wl_weights : gmap string R),
     ips_stokes_trace.trace_stokes_white ips theta_deg phi_deg stack c1 c2 basis
       wl_keys (Some wl_weights)
     = (do pts <- ips_stokes_trace.trace_stokes_per_wavelength ips theta_deg phi_deg
                    stack c1 c2 basis wl_keys;
        Ok (map (white_row_closed wl_weights pts)
              (ips_stokes_trace.group_labels [] pts))) /\
     no_division_error
       (ips_stokes_trace.trace_stokes_white ips theta_deg phi_deg stack c1 c2 basis
          wl_keys (Some wl_weights))) /\
  (forall p : binary64.StokesPoint,
     binary64.s1 p
       = Ok (PrimFloat.div (binary64.S1 p) (binary64.py_max (binary64.S0 p) binary64.eps30)) /\
     binary64.s2 p
       = Ok (PrimFloat.div (binary64.S2 p) (binary64.py_max (binary64.S0 p) binary64.eps30)) /\
     binary64.s3 p
       = Ok (PrimFloat.div (binary64.S3 p) (binary64.py_max (binary64.S0 p) binary64.eps30))) /\
  (forall S0 Si : R, Rabs (Si / Rmax S0 1e-30) <= Rabs Si / 1e-30) /\
  (forall p : ips_stokes_trace.StokesPoint,
     within_intensity p ->
     exists a b c,
       ips_stokes_trace.s1 p = Ok a /\ ips_stokes_trace.s2 p = Ok b /\
       ips_stokes_trace.s3 p = Ok c /\
       -1 <= a <= 1 /\ -1 <= b <= 1 /\ -1 <= c <= 1) /\
  (forall (ips : IpsModule) (theta_deg phi_deg : R) (stack : list element)
          (c1 c2 : vec3) (basis : string) (wl_keys : list string)
          (pts : list ips_stokes_trace.StokesPoint),
     ips_stokes_trace.trace_stokes_per_wavelength ips theta_deg phi_deg stack c1 c2
       basis wl_keys = Ok pts ->
     Forall within_intensity pts) /\
  (forall (ips : IpsModule) (theta_deg phi_deg : R) (stack : list element)
          (c1 c2 : vec3) (basis : string) (wl_keys : list string)
          (wl_weights : gmap string R) (rows : list ips_stokes_trace.WhiteRow),
     nonnegative_weights wl_weights ->
     ips_stokes_trace.trace_stokes_white ips theta_deg phi_deg stack c1 c2 basis
       wl_keys (Some wl_weights) = Ok rows ->
     Forall row_normalized rows).
Proof.
  split; [| split; [| split; [| split; [| split; [| split; [| split]]]]]].
  - intros x. split; [lra | apply py_max_floor].
  - intros p. unfold ips_stokes_trace.s1, ips_stokes_trace.s2, ips_stokes_trace.s3.
    rewrite !py_div_floor by lra. repeat split.
  - intros ips th ph stack c1 c2 basis keys w.
    split; [apply white_trace_closed |]. rewrite white_trace_closed.
    apply no_division_error_bind; [| intros; apply no_division_error_Ok].
    unfold ips_stokes_trace.trace_stokes_per_wavelength.
    apply no_division_error_bind; [apply transverse_basis_no_division_error |].
    intros [u v].
    apply no_division_error_bind; [apply trace_wavelengths_no_division_error |].
    intros; apply no_division_error_Ok.
  - intros p. unfold binary64.s1, binary64.s2, binary64.s3.
    rewrite !binary64_py_div_floor. repeat split.
  - intros S0 Si. apply quotient_magnitude.
  - intros p (H1 & H2 & H3).
    unfold ips_stokes_trace.s1, ips_stokes_trace.s2, ips_stokes_trace.s3.
    rewrite !py_div_floor by lra.
    do 3 eexists. repeat split; try reflexivity;
      apply quotient_in_unit_interval; assumption.
  - intros ips th ph stack c1 c2 basis keys pts Hrun.
    apply (trace_within _ _ _ _ _ _ _ _ _ Hrun).
  - intros ips th ph stack c1 c2 basis keys w rows Hw Hrun.
    rewrite white_trace_closed in Hrun.
    destruct (ips_stokes_trace.trace_stokes_per_wavelength ips th ph stack c1 c2
                basis keys) as [pts|e] eqn:Hpts; simpl in Hrun; [| discriminate].
    injection Hrun as <-.
    apply Forall_forall. intros r Hr. apply list_elem_of_In, in_map_iff in Hr.
    destruct Hr as (lab & <- & _).
    apply white_row_closed_normalized; [exact Hw |].
    apply (trace_within _ _ _ _ _ _ _ _ _ Hpts).
Qed.

Lemma linear_point_within : within_intensity linear_point.
Proof.
  unfold within_intensity, linear_point.
  cbn [ips_stokes_trace.S0 ips_stokes_trace.S1 ips_stokes_trace.S2 ips_stokes_trace.S3].
  lra.
Qed.

Lemma stokes_denominators_floored_witness :
  within_intensity linear_point /\
  exists a b c,
    ips_stokes_trace.s1 linear_point = Ok a /\ ips_stokes_trace.s2 linear_point = Ok b /\
    ips_stokes_trace.s3 linear_point = Ok c /\
    -1 <= a <= 1 /\ -1 <= b <= 1 /\ -1 <= c <= 1.
Proof.
  split; [exact linear_point_within |].
  exact (proj1 (proj2 (proj2 (proj2 (proj2 (proj2 stokes_denominators_floored)))))
           linear_point linear_point_within).
Defined.

(** C7, counterexample: over doubles a stored point with [S0 = 0] and
    [S1 = 1e300] has [s1 = 1e300 / 1e-30], which is infinite, and a point
    whose [S0] is NaN has a NaN [s1]: the quotients are not always finite. *)
Lemma normalized_stokes_not_finite :
  binary64.S0 dark_huge_point = PrimFloat.zero /\
  binary64.s1 dark_huge_point = Ok PrimFloat.infinity /\
  PrimFloat.is_finite PrimFloat.infinity = false /\
  exists q : float,
    binary64.s1 nan_point = Ok q /\ PrimFloat.is_nan q = true /\
    PrimFloat.is_finite q = false.
Proof.
  split; [reflexivity |]. split; [vm_compute; reflexivity |].
  split; [vm_compute; reflexivity |].
  exists PrimFloat.nan. repeat split; vm_compute; reflexivity.
Qed.

(** ** Transversality of the propagated field *)

Lemma reproject_transverse (E : cvec3) (k : vec3) :
  vnorm k = 1 -> cdot (reproject E k) k = Czero.
Proof.
  intros Hk. apply vnorm_one_dot in Hk. unfold vdot in Hk.
  destruct E as [[a b] [c d] [e f]], k as [x y z]. simpl in Hk.
  apply complex_eq; simpl.
  - transitivity ((a * x + c * y + e * z) * (1 - (x * x + y * y + z * z)));
      [ring | rewrite Hk; ring].
  - transitivity ((b * x + d * y + f * z) * (1 - (x * x + y * y + z * z)));
      [ring | rewrite Hk; ring].
Qed.

Lemma apply_retarder_transverse ips k el Gamma E :
  vnorm k = 1 -> cdot (apply_retarder ips k el Gamma E) k = Czero.
Proof. intros Hk. unfold apply_retarder. apply reproject_transverse, Hk. Qed.

Section LeakageLoops.
Context (ips : IpsModule) (theta_deg phi_deg : R) (k : vec3).
Hypothesis k_unit : vnorm k = 1.

Lemma rot_propagate_app key lam E pre post :
  run_rot_AC.propagate ips theta_deg phi_deg k key lam E (pre ++ post)
  = (do E' <- run_rot_AC.propagate ips theta_deg phi_deg k key lam E pre;
     run_rot_AC.propagate ips theta_deg phi_deg k key lam E' post).
Proof.
  revert E. induction pre as [|el pre IH]; intros E; simpl; [reflexivity |].
  destruct (_ne_no_for_wl ips el key) as [no ne].
  destruct (element_Gamma ips theta_deg phi_deg lam el no ne) as [G|e]; simpl;
    [apply IH | reflexivity].
Qed.

Lemma rot_propagate_transverse key lam E stack E' :
  stack <> [] ->
  run_rot_AC.propagate ips theta_deg phi_deg k key lam E stack = Ok E' ->
  cdot E' k = Czero.
Proof.
  revert E. induction stack as [|el rest IH]; intros E Hne Hrun; [congruence |].
  simpl in Hrun. destruct (_ne_no_for_wl ips el key) as [no ne].
  destruct (element_Gamma ips theta_deg phi_deg lam el no ne) as [G|e];
    simpl in Hrun; [| discriminate].
  destruct rest as [|el' rest'].
  - simpl in Hrun. injection Hrun as <-. apply apply_retarder_transverse, k_unit.
  - apply (IH _ ltac:(discriminate) Hrun).
Qed.

Lemma disp_propagate_app lam_nm lam mode E pre post :
  run_dispersion_updated.propagate ips theta_deg phi_deg k lam_nm lam mode E
    (pre ++ post)
  = (do E' <- run_dispersion_updated.propagate ips theta_deg phi_deg k lam_nm lam
                mode E pre;
     run_dispersion_updated.propagate ips theta_deg phi_deg k lam_nm lam mode E' post).
Proof.
  revert E. induction pre as [|el pre IH]; intros E; simpl; [reflexivity |].
  destruct (run_dispersion_updated.ne_no_for_lambda ips el lam_nm mode)
    as [[no ne]|e]; simpl; [| reflexivity].
  destruct (element_Gamma ips theta_deg phi_deg lam el no ne) as [G|e]; simpl;
    [apply IH | reflexivity].
Qed.

Lemma disp_propagate_transverse lam_nm lam mode E stack E' :
  stack <> [] ->
  run_dispersion_updated.propagate ips theta_deg phi_deg k lam_nm lam mode E stack
    = Ok E' ->
  cdot E' k = Czero.
Proof.
  revert E. induction stack as [|el rest IH]; intros E Hne Hrun; [congruence |].
  simpl in Hrun.
  destruct (run_dispersion_updated.ne_no_for_lambda ips el lam_nm mode)
    as [[no ne]|e]; simpl in Hrun; [| discriminate].
  destruct (element_Gamma ips theta_deg phi_deg lam el no ne) as [G|e];
    simpl in Hrun; [| discriminate].
  destruct rest as [|el' rest'].
  - simpl in Hrun. injection Hrun as <-. apply apply_retarder_transverse, k_unit.
  - apply (IH _ ltac:(discriminate) Hrun).
Qed.

(** Each point of the element loop of the Stokes trace is the Stokes
    quadruple of the field the leakage loop has after the same prefix. *)
Lemma trace_elements_fields u v key lam (stack : list element) :
  forall (i : nat) (E : cvec3) (ps : list ips_stokes_trace.StokesPoint),
  ips_stokes_trace.trace_elements ips theta_deg phi_deg k u v key lam i E stack
    = Ok ps ->
  length ps = length stack /\
  forall (j : nat) (p : ips_stokes_trace.StokesPoint),
    ps !! j = Some p ->
    exists (Ej : cvec3) (el : element),
      stack !! j = Some el /\
      run_rot_AC.propagate ips theta_deg phi_deg k key lam E (take (S j) stack)
        = Ok Ej /\
      cdot Ej k = Czero /\
      p = ips_stokes_trace.point_of (ips_stokes_trace.element_label (i + j) el) key
            (ips_stokes_trace.stokes_from_E Ej k u v).
Proof.
  induction stack as [|el rest IH]; intros i E ps Hrun; simpl in Hrun.
  - injection Hrun as <-. split; [reflexivity |]. intros j p Hj. discriminate.
  - destruct (_ne_no_for_wl ips el key) as [no ne] eqn:Hnn.
    destruct (element_Gamma ips theta_deg phi_deg lam el no ne) as [G|e] eqn:HG;
      simpl in Hrun; [| discriminate].
    destruct (ips_stokes_trace.trace_elements ips theta_deg phi_deg k u v key lam
                (S i) (apply_retarder ips k el G E) rest) as [ps'|e] eqn:Hrest;
      simpl in Hrun; [| discriminate].
    injection Hrun as <-.
    destruct (IH _ _ _ Hrest) as [Hlen Hpts].
    split; [simpl; congruence |].
    intros [|j] p Hj; simpl in Hj.
    + injection Hj as <-.
      exists (apply_retarder ips k el G E), el.
      split; [reflexivity |]. split.
      { simpl. rewrite Hnn, HG. reflexivity. }
      split; [apply apply_retarder_transverse, k_unit |].
      rewrite Nat.add_0_r. reflexivity.
    + destruct (Hpts j p Hj) as (Ej & el' & Hel & Hprop & Htr & Hp).
      exists Ej, el'. split; [exact Hel |]. split.
      { change (take (S (S j)) (el :: rest)) with (el :: take (S j) rest).
        simpl. rewrite Hnn, HG. simpl. exact Hprop. }
      split; [exact Htr |].
      rewrite Hp. replace (i + S j)%nat with (S i + j)%nat by lia. reflexivity.
Qed.

End LeakageLoops.

(** C3: for a unit direction [k = k_hat(theta, phi)], every element
    application ends with the re-projection, so the field is transverse
    ([E.k = 0]) after every propagation step: after every non-empty prefix of
    the stack in the two leakage loops (which then continue from that field),
    and at every element stage of the Stokes trace, whose point is the Stokes
    quadruple of that same field. *)
Theorem transversality_after_every_step (ips : IpsModule) (theta_deg phi_deg : R) :
  vnorm (k_hat ips theta_deg phi_deg) = 1 ->
  let k := k_hat ips theta_deg phi_deg in
  (forall (el : element) (Gamma : R) (E : cvec3),
     apply_retarder ips k el Gamma E
       = reproject (matvec (retarder_matrix ips k (el_axis el) Gamma) E) k /\
     cdot (apply_retarder ips k el Gamma E) k = Czero) /\
  (forall (key : string) (lam : R) (E E' : cvec3) (pre post : list element),
     pre <> [] ->
     run_rot_AC.propagate ips theta_deg phi_deg k key lam E pre = Ok E' ->
     cdot E' k = Czero /\
     run_rot_AC.propagate ips theta_deg phi_deg k key lam E (pre ++ post)
       = run_rot_AC.propagate ips theta_deg phi_deg k key lam E' post) /\
  (forall (lam_nm lam : R) (mode : string) (E E' : cvec3) (pre post : list element),
     pre <> [] ->
     run_dispersion_updated.propagate ips theta_deg phi_deg k lam_nm lam mode E pre
       = Ok E' ->
     cdot E' k = Czero /\
     run_dispersion_updated.propagate ips theta_deg phi_deg k lam_nm lam mode E
       (pre ++ post)
       = run_dispersion_updated.propagate ips theta_deg phi_deg k lam_nm lam mode E'
           post) /\
  (forall (u v : vec3) (key : string) (lam : R) (stack : list element) (i : nat)
          (E : cvec3) (ps : list ips_stokes_trace.StokesPoint),
     ips_stokes_trace.trace_elements ips theta_deg phi_deg k u v key lam i E stack
       = Ok ps ->
     length ps = length stack /\
     forall (j : nat) (p : ips_stokes_trace.StokesPoint),
       ps !! j = Some p ->
       exists (Ej : cvec3) (el : element),
         stack !! j = Some el /\
         run_rot_AC.propagate ips theta_deg phi_deg k key lam E (take (S j) stack)
           = Ok Ej /\
         cdot Ej k = Czero /\
         p = ips_stokes_trace.point_of (ips_stokes_trace.element_label (i + j) el) key
               (ips_stokes_trace.stokes_from_E Ej k u v)).
Proof.
  intros Hk k. split; [| split; [| split]].
  - intros el Gamma E. split; [reflexivity |].
    apply apply_retarder_transverse, Hk.
  - intros key lam E E' pre post Hne Hrun. split.
    + apply (rot_propagate_transverse ips theta_deg phi_deg k Hk key lam E pre E' Hne Hrun).
    + rewrite rot_propagate_app, Hrun. reflexivity.
  - intros lam_nm lam mode E E' pre post Hne Hrun. split.
    + apply (disp_propagate_transverse ips theta_deg phi_deg k Hk lam_nm lam mode
               E pre E' Hne Hrun).
    + rewrite disp_propagate_app, Hrun. reflexivity.
  - intros u v key lam stack i E ps Hrun.
    apply (trace_elements_fields ips theta_deg phi_deg k Hk u v key lam stack i E ps Hrun).
Qed.

Lemma spec_k_hat_unit (theta_deg phi_deg : R) : vnorm (spec_k_hat theta_deg phi_deg) = 1.
Proof.
  apply vnorm_one. unfold spec_k_hat, vdot; simpl.
  set (t := theta_deg * PI / 180). set (p := phi_deg * PI / 180).
  pose proof (sin2_cos2 t) as Ht. pose proof (sin2_cos2 p) as Hp.
  unfold Rsqr in Ht, Hp.
  transitivity (sin t * sin t * (sin p * sin p + cos p * cos p) + cos t * cos t);
    [ring | rewrite Hp; lra].
Qed.

Lemma transversality_after_every_step_witness :
  vnorm (k_hat ips_spec 30 45) = 1 /\
  forall (el : element) (Gamma : R) (E : cvec3),
    cdot (apply_retarder ips_spec (k_hat ips_spec 30 45) el Gamma E)
      (k_hat ips_spec 30 45) = Czero.
Proof.
  split; [apply spec_k_hat_unit |].
  intros el Gamma E.
  apply (transversality_after_every_step ips_spec 30 45 (spec_k_hat_unit 30 45)).
Defined.

(** ** Unknown element types *)

Lemma element_Gamma_recognized ips th ph lam el no ne :
  recognized el = true -> exists G, element_Gamma ips th ph lam el no ne = Ok G.
Proof.
  unfold recognized, element_Gamma. intros H.
  apply bool_decide_eq_true in H.
  repeat case_bool_decide; eauto. exfalso. tauto.
Qed.

Lemma element_Gamma_unknown ips th ph lam el no ne :
  recognized el = false ->
  element_Gamma ips th ph lam el no ne = Raise (unknown_type_error el).
Proof.
  unfold recognized, element_Gamma, unknown_type_error. intros H.
  apply bool_decide_eq_false in H.
  repeat case_bool_decide; try reflexivity; exfalso; tauto.
Qed.

Lemma first_unknown_Some stack el :
  first_unknown stack = Some el <->
  exists pre post, stack = pre ++ el :: post /\
    Forall (fun e => recognized e = true) pre /\ recognized el = false.
Proof.
  unfold first_unknown. split.
  - induction stack as [|e rest IH]; simpl; [discriminate |].
    destruct (recognized e) eqn:He; simpl.
    + intros H. destruct (IH H) as (pre & post & -> & Hpre & Hel).
      exists (e :: pre), post. repeat split; [constructor; assumption | assumption].
    + intros [= <-]. exists [], rest. repeat split; [constructor | assumption].
  - intros (pre & post & -> & Hpre & Hel).
    induction Hpre as [|e pre He Hpre IH]; simpl.
    + rewrite Hel. reflexivity.
    + rewrite He. simpl. exact IH.
Qed.

Lemma first_unknown_None stack :
  first_unknown stack = None <-> Forall (fun e => recognized e = true) stack.
Proof.
  unfold first_unknown. induction stack as [|e rest IH]; simpl.
  - split; [constructor | reflexivity].
  - destruct (recognized e) eqn:He; simpl.
    + rewrite IH. split; [intros H; constructor; assumption |].
      intros H. inversion H; assumption.
    + split; [discriminate |]. intros H. inversion H; congruence.
Qed.

Lemma rot_propagate_outcome ips th ph k key lam stack :
  forall E,
  match first_unknown stack with
  | Some el => run_rot_AC.propagate ips th ph k key lam E stack
               = Raise (unknown_type_error el)
  | None => exists E', run_rot_AC.propagate ips th ph k key lam E stack = Ok E'
  end.
Proof.
  unfold first_unknown.
  induction stack as [|el rest IH]; intros E; simpl; [eauto |].
  destruct (_ne_no_for_wl ips el key) as [no ne].
  destruct (recognized el) eqn:Hel; simpl.
  - destruct (element_Gamma_recognized ips th ph lam el no ne Hel) as [G ->]. simpl.
    apply IH.
  - rewrite element_Gamma_unknown by exact Hel. reflexivity.
Qed.

Lemma trace_elements_outcome ips th ph k u v key lam stack :
  forall i E,
  match first_unknown stack with
  | Some el => ips_stokes_trace.trace_elements ips th ph k u v key lam i E stack
               = Raise (unknown_type_error el)
  | None => exists ps,
      ips_stokes_trace.trace_elements ips th ph k u v key lam i E stack = Ok ps
  end.
Proof.
  unfold first_unknown.
  induction stack as [|el rest IH]; intros i E; simpl; [eauto |].
  destruct (_ne_no_for_wl ips el key) as [no ne].
  destruct (recognized el) eqn:Hel; simpl.
  - destruct (element_Gamma_recognized ips th ph lam el no ne Hel) as [G ->]. simpl.
    specialize (IH (S i) (apply_retarder ips k el G E)).
    destruct (List.find _ rest) as [bad|].
    + rewrite IH. reflexivity.
    + destruct IH as [ps ->]. simpl. eauto.
  - rewrite element_Gamma_unknown by exact Hel. reflexivity.
Qed.

Lemma trace_wavelengths_outcome ips th ph k u v E0 stack keys :
  keys <> [] ->
  match first_unknown stack with
  | Some el => ips_stokes_trace.trace_wavelengths ips th ph k u v E0 stack keys
               = Raise (unknown_type_error el)
  | None => exists ps,
      ips_stokes_trace.trace_wavelengths ips th ph k u v E0 stack keys = Ok ps
  end.
Proof.
  intros Hne. destruct keys as [|key rest]; [congruence |]. clear Hne.
  destruct (first_unknown stack) as [bad|] eqn:Hfu.
  - simpl.
    pose proof (trace_elements_outcome ips th ph k u v key (wl_m ips key) stack 0%nat E0)
      as H.
    rewrite Hfu in H. rewrite H. reflexivity.
  - revert key. induction rest as [|key' rest IH]; intros key; simpl.
    + pose proof (trace_elements_outcome ips th ph k u v key (wl_m ips key) stack
                    0%nat E0) as H.
      rewrite Hfu in H. destruct H as [ps ->]. simpl. eauto.
    + pose proof (trace_elements_outcome ips th ph k u v key (wl_m ips key) stack
                    0%nat E0) as H.
      rewrite Hfu in H. destruct H as [ps ->]. simpl.
      destruct (IH key') as [qs Hqs]. simpl in Hqs. rewrite Hqs. simpl. eauto.
Qed.

Lemma transverse_basis_supplied ips k basis c1 c2 :
  basis = "lab" \/ basis = "pol_in" \/ basis = "pol_out" ->
  exists uv, ips_stokes_trace.transverse_basis ips k basis (Some c1) (Some c2) = Ok uv.
Proof.
  unfold ips_stokes_trace.transverse_basis.
  intros [-> | [-> | ->]]; repeat case_bool_decide; try congruence;
    simpl; eauto.
Qed.

(** C8 (amended): the single-wavelength leakage raises [ValueError] exactly
    when the stack has an element whose token is outside ["A"], ["C"],
    ["LC"], and the error names the first such element; otherwise it returns
    a value.  The Stokes trace does the same when its basis policy is one of
    the three known ones and at least one wavelength key is traced. *)
Theorem unknown_element_type_error :
  (forall (ips : IpsModule) (theta_deg phi_deg : R) (stack : list element)
          (c1 c2 : vec3) (key : string),
     match first_unknown stack with
     | Some el =>
         run_rot_AC.Tleak_single_lambda ips theta_deg phi_deg stack c1 c2 key
           = Raise (unknown_type_error el)
     | None =>
         exists T,
           run_rot_AC.Tleak_single_lambda ips theta_deg phi_deg stack c1 c2 key = Ok T
     end) /\
  (forall (ips : IpsModule) (theta_deg phi_deg : R) (stack : list element)
          (c1 c2 : vec3) (basis : string) (wl_keys : list string),
     basis = "lab" \/ basis = "pol_in" \/ basis = "pol_out" ->
     wl_keys <> [] ->
     match first_unknown stack with
     | Some el =>
         ips_stokes_trace.trace_stokes_per_wavelength ips theta_deg phi_deg stack
           c1 c2 basis wl_keys = Raise (unknown_type_error el)
     | None =>
         exists pts,
           ips_stokes_trace.trace_stokes_per_wavelength ips theta_deg phi_deg stack
             c1 c2 basis wl_keys = Ok pts
     end) /\
  (forall (stack : list element) (el : element),
     first_unknown stack = Some el <->
     exists pre post, stack = pre ++ el :: post /\
       Forall (fun e => recognized e = true) pre /\ recognized el = false) /\
  (forall stack : list element,
     first_unknown stack = None <-> Forall (fun e => recognized e = true) stack).
Proof.
  split; [| split; [| split]].
  - intros ips th ph stack c1 c2 key.
    unfold run_rot_AC.Tleak_single_lambda.
    pose proof (rot_propagate_outcome ips th ph (k_hat ips th ph) key (wl_m ips key)
                  stack (astype_complex (o_axis_Otype ips (k_hat ips th ph) c1))) as H.
    destruct (first_unknown stack) as [bad|].
    + rewrite H. reflexivity.
    + destruct H as [E' ->]. simpl. eauto.
  - intros ips th ph stack c1 c2 basis keys Hb Hk.
    unfold ips_stokes_trace.trace_stokes_per_wavelength.
    destruct (transverse_basis_supplied ips (k_hat ips th ph) basis c1 c2 Hb)
      as [[u v] ->]. simpl.
    pose proof (trace_wavelengths_outcome ips th ph (k_hat ips th ph) u v
                  (astype_complex (o_axis_Otype ips (k_hat ips th ph) c1))
                  stack keys Hk) as H.
    destruct (first_unknown stack) as [bad|].
    + rewrite H. reflexivity.
    + destruct H as [ps ->]. simpl. eauto.
  - apply first_unknown_Some.
  - apply first_unknown_None.
Qed.

Lemma unknown_element_type_error_witness :
  ("lab" = "lab" \/ "lab" = "pol_in" \/ "lab" = "pol_out") /\
  ["G"] <> [] /\
  ips_stokes_trace.trace_stokes_per_wavelength ips_spec 0 0 [element_X]
    x_hat y_hat "lab" ["G"] = Raise (ValueError "Unknown element type: X").
Proof.
  split; [left; reflexivity |]. split; [discriminate |].
  exact (proj1 (proj2 unknown_element_type_error) ips_spec 0 0 [element_X]
           x_hat y_hat "lab" ["G"] (or_introl eq_refl)
           (fun H : ["G"] = [] => eq_ind ["G"] (fun l => match l with [] => False | _ => True end) I [] H)).
Defined.

(** C8, counterexample: with no wavelength key to trace, the Stokes trace
    returns an empty list although the stack holds an element of unknown
    type. *)
Lemma trace_without_wavelengths_accepts_unknown_type :
  first_unknown [element_X] = Some element_X /\
  ips_stokes_trace.trace_stokes_per_wavelength ips_spec 0 0 [element_X]
    x_hat y_hat "lab" [] = Ok [].
Proof.
  split; [reflexivity |].
  unfold ips_stokes_trace.trace_stokes_per_wavelength.
  destruct (transverse_basis_supplied ips_spec (k_hat ips_spec 0 0) "lab" x_hat y_hat
              (or_introl eq_refl)) as [[u v] ->].
  reflexivity.
Qed.

(** ** White leakage *)

Lemma white_sums_spec mono wl_nm_map wl_weights wl_keys Ts :
  leakages_at mono wl_nm_map wl_keys Ts ->
  forall Tsum wsum,
  run_dispersion_updated.white_sums mono wl_nm_map wl_weights Tsum wsum wl_keys
  = Ok (Tsum + weighted_sum (weights_of wl_weights wl_keys) Ts,
        wsum + total_weight (weights_of wl_weights wl_keys)).
Proof.
  unfold leakages_at, weighted_sum, total_weight, weights_of.
  induction 1 as [|k T keys Ts (lam & Hlam & HT) _ IH]; intros Tsum wsum; simpl.
  - do 2 f_equal; ring.
  - rewrite Hlam. simpl. rewrite HT. simpl. rewrite IH. do 2 f_equal; ring.
Qed.

Lemma Tleak_stack_W_value ips th ph stack c1 c2 mode wl_keys wl_nm_map wl_weights Ts :
  leakages_at
    (fun lam_nm => run_dispersion_updated.Tleak_stack_mono ips th ph stack c1 c2 lam_nm mode)
    wl_nm_map wl_keys Ts ->
  run_dispersion_updated.Tleak_stack_W ips th ph stack c1 c2 mode wl_keys wl_nm_map
    wl_weights
  = Ok (weighted_sum (weights_of wl_weights wl_keys) Ts
        / Rmax (total_weight (weights_of wl_weights wl_keys)) 1e-30).
Proof.
  intros H. unfold run_dispersion_updated.Tleak_stack_W.
  rewrite (white_sums_spec _ _ wl_weights _ _ H). cbn [bind].
  rewrite !Rplus_0_l. apply py_div_floor. lra.
Qed.

Lemma example_weights_of :
  weights_of example_weights ["B"; "G"; "R"] = [1; 2; 1].
Proof. reflexivity. Qed.

(** C1 (amended): when the total weight is at least the floor [1e-30] of the
    denominator, the white leakage is the weighted average
    [sum w_k T_k / sum w_k] of the monochromatic leakages (leakage is
    averaged, not contrast); with weights [{B:1, G:2, R:1}] and leakages
    [0.01, 0.02, 0.03] it is [0.02]. *)
Theorem Tleak_stack_W_weighted_average :
  (forall (ips : IpsModule) (theta_deg phi_deg : R) (stack : list element)
          (c1 c2 : vec3) (disp_mode : string) (wl_keys : list string)
          (wl_nm_map wl_weights : gmap string R) (Ts : list R),
     leakages_at
       (fun lam_nm => run_dispersion_updated.Tleak_stack_mono ips theta_deg phi_deg
                        stack c1 c2 lam_nm disp_mode)
       wl_nm_map wl_keys Ts ->
     1e-30 <= total_weight (weights_of wl_weights wl_keys) ->
     run_dispersion_updated.Tleak_stack_W ips theta_deg phi_deg stack c1 c2 disp_mode
       wl_keys wl_nm_map wl_weights
     = Ok (weighted_average (weights_of wl_weights wl_keys) Ts)) /\
  (forall (ips : IpsModule) (theta_deg phi_deg : R) (stack : list element)
          (c1 c2 : vec3) (disp_mode : string) (wl_nm_map : gmap string R),
     leakages_at
       (fun lam_nm => run_dispersion_updated.Tleak_stack_mono ips theta_deg phi_deg
                        stack c1 c2 lam_nm disp_mode)
       wl_nm_map ["B"; "G"; "R"] [0.01; 0.02; 0.03] ->
     run_dispersion_updated.Tleak_stack_W ips theta_deg phi_deg stack c1 c2 disp_mode
       ["B"; "G"; "R"] wl_nm_map example_weights
     = Ok 0.02 /\
     0.02 = (1 * 0.01 + 2 * 0.02 + 1 * 0.03) / 4).
Proof.
  split.
  - intros ips th ph stack c1 c2 mode keys nm w Ts HT Hw.
    rewrite (Tleak_stack_W_value _ _ _ _ _ _ _ _ _ w _ HT).
    unfold weighted_average. rewrite Rmax_left by lra. reflexivity.
  - intros ips th ph stack c1 c2 mode nm HT.
    rewrite (Tleak_stack_W_value _ _ _ _ _ _ _ _ _ example_weights _ HT).
    rewrite example_weights_of. unfold weighted_sum, total_weight. simpl.
    split; [| lra]. f_equal.
    replace (1 + (2 + (1 + 0))) with 4 by ring.
    rewrite Rmax_left by lra. lra.
Qed.

(** ** The empty stack and the pass axes of the design document *)

Lemma np_vdot_real (o a : vec3) : np_vdot o (astype_complex a) = RtoC (vdot o a).
Proof. apply complex_eq; unfold vdot; simpl; ring. Qed.

Lemma Cabs_sq_real (r : R) : Cabs (RtoC r) ^ 2 = r ^ 2.
Proof. rewrite Cabs_sq. simpl. ring. Qed.

Lemma leak_real (o2 o1 : vec3) :
  Cabs (np_vdot o2 (astype_complex o1)) ^ 2 = vdot o2 o1 ^ 2.
Proof. rewrite np_vdot_real. apply Cabs_sq_real. Qed.

Lemma spec_k_hat_normal : spec_k_hat 0 0 = z_hat.
Proof.
  unfold spec_k_hat, z_hat.
  replace (0 * PI / 180) with 0 by (unfold Rdiv; ring).
  rewrite sin_0, cos_0. f_equal; ring.
Qed.

Lemma inv_sqrt2_sq : (1 / sqrt 2) * (1 / sqrt 2) = 1 / 2.
Proof.
  assert (H : sqrt 2 * sqrt 2 = 2) by (apply sqrt_sqrt; lra).
  assert (Hn : sqrt 2 <> 0) by (intros Hz; rewrite Hz in H; lra).
  field_simplify_eq; [| exact Hn]. lra.
Qed.

Lemma spec_k_hat_45_45 : spec_k_hat 45 45 = mkV (1 / 2) (1 / 2) (1 / sqrt 2).
Proof.
  unfold spec_k_hat.
  replace (45 * PI / 180) with (PI / 4) by field.
  rewrite sin_PI4, cos_PI4. rewrite inv_sqrt2_sq. reflexivity.
Qed.

Lemma spec_pass_axis_keeps_unit_transverse (k c : vec3) :
  vdot c k = 0 -> vnorm c = 1 -> spec_pass_axis k c = c.
Proof.
  intros Hck Hc. unfold spec_pass_axis. rewrite Hck.
  assert (Hp : vsub c (vscale 0 k) = c) by (apply vec3_eq; simpl; ring).
  rewrite Hp, Hc. apply vdiv_one.
Qed.

Lemma vnorm_ex : vnorm x_hat = 1.
Proof. apply vnorm_one. unfold vdot, x_hat; simpl. ring. Qed.

Lemma vnorm_ey : vnorm y_hat = 1.
Proof. apply vnorm_one. unfold vdot, y_hat; simpl. ring. Qed.

Lemma vdot_vdiv (a b : vec3) (s t : R) :
  vdot (vdiv a s) (vdiv b t) = vdot a b * (/ s * / t).
Proof. unfold vdot, vdiv, Rdiv; simpl. ring. Qed.

Lemma transverse_part_dot (k c1 c2 : vec3) :
  vnorm k = 1 ->
  vdot (transverse_part k c2) (transverse_part k c1)
  = vdot c2 c1 - vdot c2 k * vdot c1 k.
Proof.
  intros Hk. apply vnorm_one_dot in Hk. unfold vdot in Hk.
  unfold transverse_part, vdot. destruct k as [x y z], c1 as [a b c], c2 as [d e f].
  simpl in *.
  transitivity (d * a + e * b + f * c - (d * x + e * y + f * z) * (a * x + b * y + c * z)
                + (d * x + e * y + f * z) * (a * x + b * y + c * z)
                  * ((x * x + y * y + z * z) - 1)); [ring | rewrite Hk; ring].
Qed.

Lemma spec_pass_axis_dot (k c1 c2 : vec3) :
  vdot (spec_pass_axis k c2) (spec_pass_axis k c1)
  = vdot (transverse_part k c2) (transverse_part k c1)
    * (/ vnorm (transverse_part k c2) * / vnorm (transverse_part k c1)).
Proof. unfold spec_pass_axis. apply vdot_vdiv. Qed.

Lemma spec_pass_axis_unit (k c : vec3) :
  vnorm (transverse_part k c) <> 0 -> vnorm (spec_pass_axis k c) = 1.
Proof.
  intros Hn. apply vnorm_one. rewrite spec_pass_axis_dot.
  rewrite <- vnorm_sq. field. exact Hn.
Qed.

Lemma spec_pass_axis_transverse (k c : vec3) :
  vnorm k = 1 -> vdot (spec_pass_axis k c) k = 0.
Proof.
  intros Hk. apply vnorm_one_dot in Hk. unfold vdot in Hk.
  unfold spec_pass_axis. fold (transverse_part k c).
  set (n := vnorm (transverse_part k c)).
  unfold vdot, vdiv, transverse_part, Rdiv, vdot.
  destruct k as [x y z], c as [a b d]. simpl in *.
  transitivity ((a * x + b * y + d * z) * (1 - (x * x + y * y + z * z)) * / n);
    [ring | rewrite Hk; ring].
Qed.

Lemma rot_leak_empty ips th ph c1 c2 key :
  run_rot_AC.Tleak_single_lambda ips th ph [] c1 c2 key
  = Ok (vdot (o_axis_Otype ips (k_hat ips th ph) c2)
             (o_axis_Otype ips (k_hat ips th ph) c1) ^ 2).
Proof.
  unfold run_rot_AC.Tleak_single_lambda. cbn [bind run_rot_AC.propagate].
  rewrite leak_real. reflexivity.
Qed.

Lemma mono_leak_empty ips th ph c1 c2 lam_nm mode :
  run_dispersion_updated.Tleak_stack_mono ips th ph [] c1 c2 lam_nm mode
  = Ok (vdot (o_axis_Otype ips (k_hat ips th ph) c2)
             (o_axis_Otype ips (k_hat ips th ph) c1) ^ 2).
Proof.
  unfold run_dispersion_updated.Tleak_stack_mono.
  cbn [bind run_dispersion_updated.propagate].
  rewrite leak_real. reflexivity.
Qed.

Lemma mono_leak_normal_parallel lam_nm mode :
  run_dispersion_updated.Tleak_stack_mono ips_spec 0 0 [] x_hat x_hat lam_nm mode = Ok 1.
Proof.
  rewrite mono_leak_empty. simpl. rewrite spec_k_hat_normal.
  rewrite spec_pass_axis_keeps_unit_transverse;
    [| unfold vdot, x_hat, z_hat; simpl; ring | exact vnorm_ex].
  f_equal. unfold vdot, x_hat; simpl. ring.
Qed.

Lemma Tleak_stack_W_weighted_average_witness :
  leakages_at
    (fun lam_nm => run_dispersion_updated.Tleak_stack_mono ips_spec 0 0 [] x_hat x_hat
                     lam_nm "flat")
    (WL_NM ips_spec) ["B"; "G"; "R"] [1; 1; 1] /\
  1e-30 <= total_weight (weights_of example_weights ["B"; "G"; "R"]) /\
  run_dispersion_updated.Tleak_stack_W ips_spec 0 0 [] x_hat x_hat "flat"
    ["B"; "G"; "R"] (WL_NM ips_spec) example_weights
  = Ok (weighted_average (weights_of example_weights ["B"; "G"; "R"]) [1; 1; 1]).
Proof.
  assert (HT : leakages_at
    (fun lam_nm => run_dispersion_updated.Tleak_stack_mono ips_spec 0 0 [] x_hat x_hat
                     lam_nm "flat")
    (WL_NM ips_spec) ["B"; "G"; "R"] [1; 1; 1]).
  { repeat constructor.
    - exists 450. split; [reflexivity | apply mono_leak_normal_parallel].
    - exists 546. split; [reflexivity | apply mono_leak_normal_parallel].
    - exists 610. split; [reflexivity | apply mono_leak_normal_parallel]. }
  assert (Hw : 1e-30 <= total_weight (weights_of example_weights ["B"; "G"; "R"])).
  { rewrite example_weights_of. unfold total_weight. simpl. lra. }
  split; [exact HT |]. split; [exact Hw |].
  exact (proj1 Tleak_stack_W_weighted_average ips_spec 0 0 [] x_hat x_hat "flat"
           ["B"; "G"; "R"] (WL_NM ips_spec) example_weights [1; 1; 1] HT Hw).
Defined.

(** C1, counterexample: a single green sample of weight [1e-31] has positive
    total weight, its leakage is 1, and the white leakage is
    [1e-31 / 1e-30 = 0.1], not the weighted average 1. *)
Lemma white_leakage_below_weight_floor :
  0 < total_weight (weights_of tiny_weights ["G"]) /\
  leakages_at
    (fun lam_nm => run_dispersion_updated.Tleak_stack_mono ips_spec 0 0 [] x_hat x_hat
                     lam_nm "flat")
    green_only ["G"] [1] /\
  weighted_average (weights_of tiny_weights ["G"]) [1] = 1 /\
  run_dispersion_updated.Tleak_stack_W ips_spec 0 0 [] x_hat x_hat "flat"
    ["G"] green_only tiny_weights = Ok 0.1 /\
  run_dispersion_updated.Tleak_stack_W ips_spec 0 0 [] x_hat x_hat "flat"
    ["G"] green_only tiny_weights
  <> Ok (weighted_average (weights_of tiny_weights ["G"]) [1]).
Proof.
  assert (Hw : weights_of tiny_weights ["G"] = [1e-31]) by reflexivity.
  assert (HT : leakages_at
    (fun lam_nm => run_dispersion_updated.Tleak_stack_mono ips_spec 0 0 [] x_hat x_hat
                     lam_nm "flat")
    green_only ["G"] [1]).
  { repeat constructor. exists 546.
    split; [reflexivity | apply mono_leak_normal_parallel]. }
  assert (Havg : weighted_average (weights_of tiny_weights ["G"]) [1] = 1).
  { rewrite Hw. unfold weighted_average, weighted_sum, total_weight. simpl. field. }
  assert (HW : run_dispersion_updated.Tleak_stack_W ips_spec 0 0 [] x_hat x_hat "flat"
                 ["G"] green_only tiny_weights = Ok 0.1).
  { rewrite (Tleak_stack_W_value _ _ _ _ _ _ _ _ _ tiny_weights _ HT).
    rewrite Hw. unfold weighted_sum, total_weight. simpl.
    rewrite Rmax_right by lra. f_equal. lra. }
  split; [rewrite Hw; unfold total_weight; simpl; lra |].
  split; [exact HT |]. split; [exact Havg |]. split; [exact HW |].
  rewrite HW, Havg. intros [= H]. lra.
Qed.

Lemma spec_leak_empty (th ph : R) (c1 c2 : vec3) :
  let k := spec_k_hat th ph in
  vdot (spec_pass_axis k c2) (spec_pass_axis k c1) ^ 2
  = ((vdot c2 c1 - vdot c2 k * vdot c1 k)
     * (/ vnorm (transverse_part k c2) * / vnorm (transverse_part k c1))) ^ 2.
Proof.
  intros k. rewrite spec_pass_axis_dot, transverse_part_dot by apply spec_k_hat_unit.
  reflexivity.
Qed.

Lemma spec_leak_parallel (th ph : R) (c : vec3) :
  vnorm (transverse_part (spec_k_hat th ph) c) <> 0 ->
  vdot (spec_pass_axis (spec_k_hat th ph) c) (spec_pass_axis (spec_k_hat th ph) c) ^ 2 = 1.
Proof.
  intros Hn. apply spec_pass_axis_unit, vnorm_one_dot in Hn. rewrite Hn. ring.
Qed.

Lemma spec_leak_crossed (th ph : R) (c1 c2 : vec3) :
  vdot c1 c2 = 0 ->
  vdot c1 (spec_k_hat th ph) = 0 \/ vdot c2 (spec_k_hat th ph) = 0 ->
  vdot (spec_pass_axis (spec_k_hat th ph) c2) (spec_pass_axis (spec_k_hat th ph) c1) ^ 2 = 0.
Proof.
  intros Hc Hk. rewrite spec_leak_empty.
  assert (H21 : vdot c2 c1 = 0) by (unfold vdot in *; lra).
  rewrite H21. destruct Hk as [-> | ->]; ring.
Qed.

(** C5 (amended): through an empty stack both leakage evaluators return
    [|<o2, o1>|^2] for the two pass axes at [k], at every direction and
    wavelength.  With the pass axis of the design document, parallel
    polarizers ([c1 = c2], not parallel to [k]) give leakage 1, and crossed
    polarizers ([c1] perpendicular to [c2]) give leakage 0 when [k] is
    perpendicular to one of the two absorption axes, in particular at normal
    incidence for in-plane axes. *)
Theorem empty_stack_leakage :
  (forall (ips : IpsModule) (theta_deg phi_deg : R) (c1 c2 : vec3) (key : string)
          (lam_nm : R) (disp_mode : string),
     let k := k_hat ips theta_deg phi_deg in
     let o1 := o_axis_Otype ips k c1 in
     let o2 := o_axis_Otype ips k c2 in
     run_rot_AC.Tleak_single_lambda ips theta_deg phi_deg [] c1 c2 key
       = Ok (Cabs (np_vdot o2 (astype_complex o1)) ^ 2) /\
     run_dispersion_updated.Tleak_stack_mono ips theta_deg phi_deg [] c1 c2 lam_nm
       disp_mode = Ok (Cabs (np_vdot o2 (astype_complex o1)) ^ 2) /\
     Cabs (np_vdot o2 (astype_complex o1)) ^ 2 = vdot o2 o1 ^ 2) /\
  (forall (theta_deg phi_deg : R) (c : vec3) (key : string) (lam_nm : R)
          (disp_mode : string),
     vnorm (transverse_part (spec_k_hat theta_deg phi_deg) c) <> 0 ->
     run_rot_AC.Tleak_single_lambda ips_spec theta_deg phi_deg [] c c key = Ok 1 /\
     run_dispersion_updated.Tleak_stack_mono ips_spec theta_deg phi_deg [] c c lam_nm
       disp_mode = Ok 1) /\
  (forall (theta_deg phi_deg : R) (c1 c2 : vec3) (key : string) (lam_nm : R)
          (disp_mode : string),
     vdot c1 c2 = 0 ->
     vdot c1 (spec_k_hat theta_deg phi_deg) = 0 \/
     vdot c2 (spec_k_hat theta_deg phi_deg) = 0 ->
     run_rot_AC.Tleak_single_lambda ips_spec theta_deg phi_deg [] c1 c2 key = Ok 0 /\
     run_dispersion_updated.Tleak_stack_mono ips_spec theta_deg phi_deg [] c1 c2 lam_nm
       disp_mode = Ok 0) /\
  (forall (c1 c2 : vec3) (key : string),
     vz c1 = 0 -> vdot c1 c2 = 0 ->
     run_rot_AC.Tleak_single_lambda ips_spec 0 0 [] c1 c2 key = Ok 0).
Proof.
  split; [| split; [| split]].
  - intros ips th ph c1 c2 key lam_nm mode k o1 o2.
    split; [| split]; [reflexivity | reflexivity | apply leak_real].
  - intros th ph c key lam_nm mode Hn.
    rewrite rot_leak_empty, mono_leak_empty. cbn [k_hat o_axis_Otype ips_spec].
    rewrite spec_leak_parallel by exact Hn. split; reflexivity.
  - intros th ph c1 c2 key lam_nm mode Hc Hk.
    rewrite rot_leak_empty, mono_leak_empty. cbn [k_hat o_axis_Otype ips_spec].
    rewrite spec_leak_crossed by assumption. split; reflexivity.
  - intros c1 c2 key Hz Hc.
    rewrite rot_leak_empty. cbn [k_hat o_axis_Otype ips_spec].
    rewrite spec_leak_crossed; [reflexivity | exact Hc |].
    left. rewrite spec_k_hat_normal. unfold vdot, z_hat; simpl. rewrite Hz. ring.
Qed.

Lemma transverse_part_x_normal : transverse_part (spec_k_hat 0 0) x_hat = x_hat.
Proof.
  rewrite spec_k_hat_normal. unfold transverse_part, vdot, x_hat, z_hat.
  apply vec3_eq; simpl; ring.
Qed.

Lemma empty_stack_leakage_witness :
  vnorm (transverse_part (spec_k_hat 0 0) x_hat) <> 0 /\
  vz x_hat = 0 /\ vdot x_hat y_hat = 0 /\
  run_rot_AC.Tleak_single_lambda ips_spec 0 0 [] x_hat x_hat "G" = Ok 1 /\
  run_rot_AC.Tleak_single_lambda ips_spec 0 0 [] x_hat y_hat "G" = Ok 0.
Proof.
  assert (Hn : vnorm (transverse_part (spec_k_hat 0 0) x_hat) <> 0).
  { rewrite transverse_part_x_normal, vnorm_ex. lra. }
  assert (Hz : vz x_hat = 0) by reflexivity.
  assert (Hc : vdot x_hat y_hat = 0) by (unfold vdot, x_hat, y_hat; simpl; ring).
  split; [exact Hn |]. split; [exact Hz |]. split; [exact Hc |]. split.
  - exact (proj1 (proj1 (proj2 empty_stack_leakage) 0 0 x_hat "G" 546 "flat" Hn)).
  - exact (proj2 (proj2 (proj2 empty_stack_leakage)) x_hat y_hat "G" Hz Hc).
Defined.

(** C5, counterexample: at [theta = phi = 45] degrees, crossed polarizers
    with absorption axes [x] and [y] leak [1/9] through an empty stack. *)
Lemma crossed_polarizers_leak_off_axis :
  vdot x_hat y_hat = 0 /\
  run_rot_AC.Tleak_single_lambda ips_spec 45 45 [] x_hat y_hat "G" = Ok (1 / 9) /\
  run_dispersion_updated.Tleak_stack_mono ips_spec 45 45 [] x_hat y_hat 546 "flat"
    = Ok (1 / 9).
Proof.
  assert (Hv : vdot (spec_pass_axis (spec_k_hat 45 45) y_hat)
                 (spec_pass_axis (spec_k_hat 45 45) x_hat) ^ 2 = 1 / 9).
  { rewrite spec_leak_empty. cbv zeta.
    assert (Hx : vnorm (transverse_part (spec_k_hat 45 45) x_hat)
                 * vnorm (transverse_part (spec_k_hat 45 45) x_hat) = 3 / 4).
    { rewrite vnorm_sq, transverse_part_dot by apply spec_k_hat_unit.
      rewrite spec_k_hat_45_45. unfold vdot, x_hat; simpl. lra. }
    assert (Hy : vnorm (transverse_part (spec_k_hat 45 45) y_hat)
                 * vnorm (transverse_part (spec_k_hat 45 45) y_hat) = 3 / 4).
    { rewrite vnorm_sq, transverse_part_dot by apply spec_k_hat_unit.
      rewrite spec_k_hat_45_45. unfold vdot, y_hat; simpl. lra. }
    set (nx := vnorm (transverse_part (spec_k_hat 45 45) x_hat)) in *.
    set (ny := vnorm (transverse_part (spec_k_hat 45 45) y_hat)) in *.
    assert (Hd : vdot y_hat x_hat
                 - vdot y_hat (spec_k_hat 45 45) * vdot x_hat (spec_k_hat 45 45)
                 = - (1 / 4)).
    { rewrite spec_k_hat_45_45. unfold vdot, x_hat, y_hat; simpl. lra. }
    rewrite Hd.
    assert (Hnx : nx <> 0) by (intros H0; rewrite H0 in Hx; lra).
    assert (Hny : ny <> 0) by (intros H0; rewrite H0 in Hy; lra).
    replace ((- (1 / 4) * (/ ny * / nx)) ^ 2)
      with (1 / 16 * / ((ny * ny) * (nx * nx))) by (field; split; assumption).
    rewrite Hx, Hy. lra. }
  split; [unfold vdot, x_hat, y_hat; simpl; ring |].
  rewrite rot_leak_empty, mono_leak_empty. cbn [k_hat o_axis_Otype ips_spec].
  rewrite Hv. split; reflexivity.
Qed.

(** ** The transverse basis *)

Lemma vnorm_lower (a : vec3) (b : R) : 0 <= b -> b * b <= vdot a a -> b <= vnorm a.
Proof.
  intros Hb Hsq. pose proof (vnorm_sq a) as Hs. pose proof (vnorm_nonneg a) as Hn.
  destruct (Rle_lt_dec b (vnorm a)) as [H | H]; [exact H |]. nra.
Qed.

Lemma vcross_norm (k u : vec3) :
  vdot (vcross k u) (vcross k u) = vdot k k * vdot u u - vdot k u * vdot k u.
Proof. unfold vdot, vcross; simpl. ring. Qed.

(** What the last two lines of [transverse_basis] make of a transverse,
    non-degenerate seed vector. *)
Lemma basis_from_seed (k w : vec3) :
  vnorm k = 1 -> vdot w k = 0 -> 1e-15 <= vnorm w ->
  right_handed_transverse k (ips_stokes_trace._normalize w)
    (ips_stokes_trace._normalize (vcross k (ips_stokes_trace._normalize w))).
Proof.
  intros Hk Hwk Hw.
  pose proof (_normalize_large w Hw) as Hu.
  set (u := ips_stokes_trace._normalize w) in *.
  assert (Huk : vdot u k = 0).
  { unfold u, ips_stokes_trace._normalize. rewrite py_max_left by lra.
    unfold vdot, vdiv, Rdiv in *; simpl.
    transitivity ((vx w * vx k + vy w * vy k + vz w * vz k) * / vnorm w);
      [ring | rewrite Hwk; ring]. }
  pose proof (vnorm_one_dot _ Hk) as Hkk. pose proof (vnorm_one_dot _ Hu) as Huu.
  assert (Hku : vdot k u = 0) by (unfold vdot in *; lra).
  assert (Hc : vnorm (vcross k u) = 1).
  { apply vnorm_one. rewrite vcross_norm, Hkk, Huu, Hku. ring. }
  rewrite (_normalize_unit _ Hc).
  unfold right_handed_transverse.
  split; [exact Hu |]. split; [exact Hc |].
  split; [unfold vdot, vcross; simpl; ring |].
  split; [exact Huk |].
  split; [unfold vdot, vcross; simpl; ring |].
  split; [reflexivity |].
  transitivity (vdot k k * vdot u u - vdot k u * vdot k u);
    [unfold vdot, vcross; simpl; ring | rewrite Hkk, Huu, Hku; ring].
Qed.

Lemma lab_seed (k : vec3) :
  vnorm k = 1 ->
  let ref := if Rgt_dec (Rabs (vdot (mkV 1 0 0) k)) 0.95 then mkV 0 1 0 else mkV 1 0 0 in
  let w := vsub ref (vscale (vdot ref k) k) in
  vdot w k = 0 /\ 1e-15 <= vnorm w.
Proof.
  intros Hk. pose proof (vnorm_one_dot _ Hk) as Hkk.
  destruct k as [x y z]. unfold vdot in Hkk. simpl in Hkk.
  cbv zeta. destruct (Rgt_dec _ _) as [Hgt | Hle].
  - unfold vdot in Hgt; simpl in Hgt.
    assert (Hx : 0.95 * 0.95 < x * x).
    { replace (1 * x + 0 * y + 0 * z) with x in Hgt by ring.
      unfold Rabs in Hgt. destruct (Rcase_abs x); nra. }
    split.
    + unfold vdot, vsub, vscale; simpl.
      transitivity (y * (1 - (x * x + y * y + z * z))); [ring | rewrite Hkk; ring].
    + apply Rle_trans with 0.3; [lra |]. apply vnorm_lower; [lra |].
      unfold vdot, vsub, vscale; simpl.
      replace ((0 - (0 * x + 1 * y + 0 * z) * x) * (0 - (0 * x + 1 * y + 0 * z) * x)
               + (1 - (0 * x + 1 * y + 0 * z) * y) * (1 - (0 * x + 1 * y + 0 * z) * y)
               + (0 - (0 * x + 1 * y + 0 * z) * z) * (0 - (0 * x + 1 * y + 0 * z) * z))
        with (1 - 2 * (y * y) + y * y * (x * x + y * y + z * z)) by ring.
      rewrite Hkk. nra.
  - unfold vdot in Hle; simpl in Hle.
    assert (Hx : x * x <= 0.95 * 0.95).
    { replace (1 * x + 0 * y + 0 * z) with x in Hle by ring.
      unfold Rabs in Hle. destruct (Rcase_abs x); nra. }
    split.
    + unfold vdot, vsub, vscale; simpl.
      transitivity (x * (1 - (x * x + y * y + z * z))); [ring | rewrite Hkk; ring].
    + apply Rle_trans with 0.3; [lra |]. apply vnorm_lower; [lra |].
      unfold vdot, vsub, vscale; simpl.
      replace ((1 - (1 * x + 0 * y + 0 * z) * x) * (1 - (1 * x + 0 * y + 0 * z) * x)
               + (0 - (1 * x + 0 * y + 0 * z) * y) * (0 - (1 * x + 0 * y + 0 * z) * y)
               + (0 - (1 * x + 0 * y + 0 * z) * z) * (0 - (1 * x + 0 * y + 0 * z) * z))
        with (1 - 2 * (x * x) + x * x * (x * x + y * y + z * z)) by ring.
      rewrite Hkk. nra.
Qed.

Lemma transverse_basis_lab ips k c1 c2 :
  vnorm k = 1 ->
  exists u v, ips_stokes_trace.transverse_basis ips k "lab" c1 c2 = Ok (u, v) /\
              right_handed_transverse k u v.
Proof.
  intros Hk. unfold ips_stokes_trace.transverse_basis.
  rewrite (_normalize_unit k Hk).
  rewrite bool_decide_eq_true_2 by reflexivity.
  destruct (lab_seed k Hk) as [Hwk Hw]. cbv zeta in Hwk, Hw.
  cbn [bind]. eexists _, _. split; [reflexivity |].
  apply basis_from_seed; assumption.
Qed.

Lemma transverse_basis_pol_in ips k c c2 :
  vnorm k = 1 ->
  vdot (o_axis_Otype ips k c) k = 0 -> 1e-15 <= vnorm (o_axis_Otype ips k c) ->
  exists u v, ips_stokes_trace.transverse_basis ips k "pol_in" (Some c) c2 = Ok (u, v) /\
              right_handed_transverse k u v.
Proof.
  intros Hk Ho Hn. unfold ips_stokes_trace.transverse_basis.
  rewrite (_normalize_unit k Hk).
  rewrite bool_decide_eq_false_2 by discriminate.
  rewrite bool_decide_eq_true_2 by reflexivity.
  cbn [bind]. eexists _, _. split; [reflexivity |].
  apply basis_from_seed; assumption.
Qed.

Lemma transverse_basis_pol_out ips k c1 c :
  vnorm k = 1 ->
  vdot (o_axis_Otype ips k c) k = 0 -> 1e-15 <= vnorm (o_axis_Otype ips k c) ->
  exists u v, ips_stokes_trace.transverse_basis ips k "pol_out" c1 (Some c) = Ok (u, v) /\
              right_handed_transverse k u v.
Proof.
  intros Hk Ho Hn. unfold ips_stokes_trace.transverse_basis.
  rewrite (_normalize_unit k Hk).
  rewrite !bool_decide_eq_false_2 by discriminate.
  rewrite bool_decide_eq_true_2 by reflexivity.
  cbn [bind]. eexists _, _. split; [reflexivity |].
  apply basis_from_seed; assumption.
Qed.

(** C6 (amended): for a unit direction [k], [transverse_basis] returns a
    right-handed orthonormal transverse basis ([|u| = |v| = 1], [u.v = 0],
    [u.k = v.k = 0], [v = k x u], [k.(u x v) = 1]) under the "lab" policy
    always, and under "pol_in" / "pol_out" when the pass axis of the supplied
    polarizer axis is transverse and not degenerate; with the pass axis of the
    design document that is whenever the polarizer axis is not parallel to
    [k]. *)
Theorem transverse_basis_orthonormal :
  (forall (ips : IpsModule) (k : vec3) (c1 c2 : option vec3),
     vnorm k = 1 ->
     exists u v, ips_stokes_trace.transverse_basis ips k "lab" c1 c2 = Ok (u, v) /\
                 right_handed_transverse k u v) /\
  (forall (ips : IpsModule) (k c : vec3) (other : option vec3),
     vnorm k = 1 ->
     vdot (o_axis_Otype ips k c) k = 0 -> 1e-15 <= vnorm (o_axis_Otype ips k c) ->
     (exists u v,
        ips_stokes_trace.transverse_basis ips k "pol_in" (Some c) other = Ok (u, v) /\
        right_handed_transverse k u v) /\
     (exists u v,
        ips_stokes_trace.transverse_basis ips k "pol_out" other (Some c) = Ok (u, v) /\
        right_handed_transverse k u v)) /\
  (forall (theta_deg phi_deg : R) (c : vec3) (other : option vec3),
     vnorm (transverse_part (spec_k_hat theta_deg phi_deg) c) <> 0 ->
     let k := k_hat ips_spec theta_deg phi_deg in
     (exists u v,
        ips_stokes_trace.transverse_basis ips_spec k "pol_in" (Some c) other = Ok (u, v) /\
        right_handed_transverse k u v) /\
     (exists u v,
        ips_stokes_trace.transverse_basis ips_spec k "pol_out" other (Some c) = Ok (u, v) /\
        right_handed_transverse k u v)).
Proof.
  split; [| split].
  - intros ips k c1 c2 Hk. apply transverse_basis_lab, Hk.
  - intros ips k c other Hk Ho Hn. split.
    + apply transverse_basis_pol_in; assumption.
    + apply transverse_basis_pol_out; assumption.
  - intros th ph c other Hn k.
    assert (Hk : vnorm k = 1) by apply spec_k_hat_unit.
    assert (Ho : vdot (o_axis_Otype ips_spec k c) k = 0)
      by (apply spec_pass_axis_transverse, Hk).
    assert (Hu : 1e-15 <= vnorm (o_axis_Otype ips_spec k c)).
    { cbn [o_axis_Otype ips_spec]. unfold k. cbn [k_hat ips_spec].
      rewrite spec_pass_axis_unit by exact Hn. lra. }
    split.
    + apply transverse_basis_pol_in; assumption.
    + apply transverse_basis_pol_out; assumption.
Qed.

Lemma transverse_basis_orthonormal_witness :
  vnorm (transverse_part (spec_k_hat 0 0) x_hat) <> 0 /\
  exists u v,
    ips_stokes_trace.transverse_basis ips_spec (k_hat ips_spec 0 0) "pol_in"
      (Some x_hat) None = Ok (u, v) /\
    right_handed_transverse (k_hat ips_spec 0 0) u v.
Proof.
  assert (Hn : vnorm (transverse_part (spec_k_hat 0 0) x_hat) <> 0).
  { rewrite transverse_part_x_normal, vnorm_ex. lra. }
  split; [exact Hn |].
  exact (proj1 (proj2 (proj2 transverse_basis_orthonormal) 0 0 x_hat None Hn)).
Defined.

Lemma vnorm_zero_vector : vnorm (mkV 0 0 0) = 0.
Proof.
  unfold vnorm, vdot; simpl.
  replace (0 * 0 + 0 * 0 + 0 * 0) with 0 by ring. apply sqrt_0.
Qed.

(** C6, counterexample: at normal incidence with the polarizer axis along
    the normal (parallel to [k]) the "pol_in" policy returns no orthonormal
    basis: the pass axis has no transverse part and [u] is the zero vector. *)
Lemma transverse_basis_degenerate_axis :
  vnorm (k_hat ips_spec 0 0) = 1 /\
  ~ (exists u v,
       ips_stokes_trace.transverse_basis ips_spec (k_hat ips_spec 0 0) "pol_in"
         (Some z_hat) None = Ok (u, v) /\
       right_handed_transverse (k_hat ips_spec 0 0) u v).
Proof.
  split; [apply spec_k_hat_unit |].
  intros (u & v & Hrun & Hu & _).
  cbn [k_hat ips_spec] in Hrun. rewrite spec_k_hat_normal in Hrun.
  unfold ips_stokes_trace.transverse_basis in Hrun.
  rewrite (_normalize_unit z_hat vnorm_ez) in Hrun.
  rewrite bool_decide_eq_false_2 in Hrun by discriminate.
  rewrite bool_decide_eq_true_2 in Hrun by reflexivity.
  cbn [bind o_axis_Otype ips_spec] in Hrun.
  assert (Hp : spec_pass_axis z_hat z_hat = mkV 0 0 0).
  { unfold spec_pass_axis, vdiv, vsub, vscale, vdot, z_hat, Rdiv.
    apply vec3_eq; simpl; ring. }
  rewrite Hp in Hrun.
  assert (Hz : ips_stokes_trace._normalize (mkV 0 0 0) = mkV 0 0 0).
  { unfold ips_stokes_trace._normalize, vdiv, Rdiv. apply vec3_eq; simpl; ring. }
  rewrite Hz in Hrun. injection Hrun as <- _.
  rewrite vnorm_zero_vector in Hu. lra.
Qed.

(** ** Dispersion scaling *)

Lemma np_interp_BGR (sB sG sR lam : R) :
  np_interp lam run_dispersion_updated.BGR_WL [sB; sG; sR] sB sR
  = piecewise_scale sB sG sR lam.
Proof.
  unfold np_interp, run_dispersion_updated.BGR_WL, piecewise_scale, interp_from.
  cbn [List.hd List.last].
  repeat (destruct (Rlt_dec _ _)); repeat (destruct (Rle_dec _ _));
    repeat (destruct (Req_dec_T _ _)); try lra; try (subst; field_simplify_eq; lra);
    try (field_simplify_eq; lra).
  replace lam with 610 by lra. field.
Qed.

Lemma _interp_scale_piecewise (lam : R) (d : gmap string R) :
  run_dispersion_updated._interp_scale lam d
  = piecewise_scale (default 1 (d !! "B")) (default 1 (d !! "G")) (default 1 (d !! "R")) lam.
Proof. unfold run_dispersion_updated._interp_scale. cbv zeta. apply np_interp_BGR. Qed.

Lemma ne_no_for_lambda_table ips el lam mode tab :
  mode <> "flat" ->
  run_dispersion_updated._dn_scale_table ips mode = Ok tab ->
  run_dispersion_updated.ne_no_for_lambda ips el lam mode
  = Ok (el_no el,
        el_no el + (el_ne el - el_no el)
          * piecewise_scale (factor tab (el_type el) "B") (factor tab (el_type el) "G")
              (factor tab (el_type el) "R") lam).
Proof.
  intros Hm Ht. unfold run_dispersion_updated.ne_no_for_lambda.
  rewrite bool_decide_eq_false_2 by exact Hm. cbv zeta. rewrite Ht. cbn [bind].
  rewrite _interp_scale_piecewise. reflexivity.
Qed.

(** C4: in mode "flat" the element's [(no, ne)] come back unchanged; in the
    modes "matched", "mismatched" and "current" the indices are
    [(no, no + (ne_G - no) * s(lambda))], with [s] the interpolation of the
    element type's B, G, R factors (1.0 where the table has none) that is
    linear between 450, 546 and 610 nm and constant below 450 nm and above
    610 nm. *)
Theorem ne_no_for_lambda_scaled (ips : IpsModule) (el : element) (lam_nm : R) :
  let s := fun tab =>
    piecewise_scale (factor tab (el_type el) "B") (factor tab (el_type el) "G")
      (factor tab (el_type el) "R") lam_nm in
  run_dispersion_updated.ne_no_for_lambda ips el lam_nm "flat"
    = Ok (el_no el, el_ne el) /\
  run_dispersion_updated.ne_no_for_lambda ips el lam_nm "matched"
    = Ok (el_no el, el_no el + (el_ne el - el_no el) * s (DN_SCALE_MATCHED ips)) /\
  run_dispersion_updated.ne_no_for_lambda ips el lam_nm "mismatched"
    = Ok (el_no el, el_no el + (el_ne el - el_no el) * s (DN_SCALE_MISMATCHED ips)) /\
  run_dispersion_updated.ne_no_for_lambda ips el lam_nm "current"
    = Ok (el_no el, el_no el + (el_ne el - el_no el) * s (DN_SCALE ips)) /\
  (forall d : gmap string R,
     run_dispersion_updated._interp_scale lam_nm d
       = piecewise_scale (default 1 (d !! "B")) (default 1 (d !! "G"))
           (default 1 (d !! "R")) lam_nm /\
     run_dispersion_updated._interp_scale (Rmin lam_nm 450) d = default 1 (d !! "B") /\
     run_dispersion_updated._interp_scale 546 d = default 1 (d !! "G") /\
     run_dispersion_updated._interp_scale (Rmax lam_nm 610) d = default 1 (d !! "R")).
Proof.
  intros s. split; [| split; [| split; [| split]]].
  - unfold run_dispersion_updated.ne_no_for_lambda.
    rewrite bool_decide_eq_true_2 by reflexivity. cbv zeta. do 2 f_equal. ring.
  - apply ne_no_for_lambda_table; [discriminate | reflexivity].
  - apply ne_no_for_lambda_table; [discriminate | reflexivity].
  - apply ne_no_for_lambda_table; [discriminate | reflexivity].
  - intros d. rewrite !_interp_scale_piecewise. split; [reflexivity |].
    unfold piecewise_scale. split; [| split].
    + destruct (Rle_dec (Rmin lam_nm 450) 450) as [_ | H]; [reflexivity |].
      exfalso. apply H, Rmin_r.
    + repeat (destruct (Rle_dec _ _)); try lra; field.
    + pose proof (Rmax_r lam_nm 610).
      repeat (destruct (Rle_dec _ _)); try lra;
        replace (Rmax lam_nm 610) with 610 by lra; field.
Qed.

(** ** The angular grid *)

Lemma ceilZ_spec (x : R) : IZR (ceilZ x) - 1 < x <= IZR (ceilZ x).
Proof.
  unfold ceilZ. rewrite minus_IZR. destruct (archimed (- x)) as [H1 H2]. lra.
Qed.

Lemma below_ceilZ (i : nat) (q : R) :
  (i < Z.to_nat (ceilZ q))%nat <-> INR i < q.
Proof.
  destruct (ceilZ_spec q) as [Hlo Hhi]. rewrite INR_IZR_INZ. split.
  - intros Hi. assert (Hz : (Z.of_nat i < ceilZ q)%Z) by lia.
    assert (Hz' : (Z.of_nat i <= ceilZ q - 1)%Z) by lia.
    apply IZR_le in Hz'. rewrite minus_IZR in Hz'. lra.
  - intros Hi. assert (Hz : IZR (Z.of_nat i) < IZR (ceilZ q)) by lra.
    apply lt_IZR in Hz. lia.
Qed.

(** The samples of [np.arange(0, stop, step)] for a positive step: the
    multiples of the step below [stop], in increasing order. *)
Lemma np_arange_from_zero (stop step : R) :
  0 < step ->
  exists n : nat,
    np_arange 0 stop step = Ok (map (fun i : nat => INR i * step) (seq 0 n)) /\
    forall i : nat, (i < n)%nat <-> INR i * step < stop.
Proof.
  intros Hs. exists (Z.to_nat (ceilZ ((stop - 0) / step))). split.
  - unfold np_arange. destruct (Req_dec_T step 0) as [H0 | _]; [lra |].
    f_equal. apply map_ext. intros i. ring.
  - intros i. rewrite below_ceilZ. unfold Rdiv. rewrite Rminus_0_r. split.
    + intros H. apply Rmult_lt_compat_r with (r := step) in H; [| exact Hs].
      rewrite Rmult_assoc, Rinv_l in H by lra. lra.
    + intros H. apply Rmult_lt_reg_r with step; [exact Hs |].
      rewrite Rmult_assoc, Rinv_l by lra. lra.
Qed.

Lemma In_multiples (step : R) (n : nat) (x : R) :
  In x (map (fun i : nat => INR i * step) (seq 0 n)) <->
  exists i : nat, (i < n)%nat /\ x = INR i * step.
Proof.
  rewrite in_map_iff. split.
  - intros (i & <- & Hi). apply in_seq in Hi. exists i. split; [lia | reflexivity].
  - intros (i & Hi & ->). exists i. split; [reflexivity |]. apply in_seq. lia.
Qed.

Lemma mapM_Ok_lookup {A B : Type} (f : A -> result B) (l : list A) (bs : list B) :
  mapM f l = Ok bs ->
  length bs = length l /\
  forall (i : nat) (a : A), l !! i = Some a -> exists b, bs !! i = Some b /\ f a = Ok b.
Proof.
  revert bs. induction l as [|a l IH]; intros bs H; simpl in H.
  - injection H as <-. split; [reflexivity |]. intros i a Hi. discriminate.
  - destruct (f a) as [b|e] eqn:Hf; simpl in H; [| discriminate].
    destruct (mapM f l) as [bs'|e] eqn:Hm; simpl in H; [| discriminate].
    injection H as <-. destruct (IH bs' eq_refl) as [Hlen Hall].
    split; [simpl; congruence |].
    intros [|i] a' Hi; simpl in Hi.
    + injection Hi as <-. exists b. split; [reflexivity | exact Hf].
    + apply Hall, Hi.
Qed.

Lemma fill_grid_cells (cell : R -> R -> result R) (thetas phis : list R)
    (CR : list (list R)) :
  run_dispersion_updated.fill_grid cell thetas phis = Ok CR ->
  length CR = length thetas /\
  forall (i j : nat) (th ph : R),
    thetas !! i = Some th -> phis !! j = Some ph ->
    exists row v, CR !! i = Some row /\ length row = length phis /\
                  row !! j = Some v /\ cell th ph = Ok v.
Proof.
  unfold run_dispersion_updated.fill_grid. intros H.
  destruct (mapM_Ok_lookup _ _ _ H) as [Hlen Hrows]. split; [exact Hlen |].
  intros i j th ph Hi Hj.
  destruct (Hrows i th Hi) as (row & Hrow & Hm).
  destruct (mapM_Ok_lookup _ _ _ Hm) as [Hl Hcells].
  destruct (Hcells j ph Hj) as (v & Hv & Hc).
  exists row, v. repeat split; assumption.
Qed.

(** C9 (amended): for positive steps the theta samples are the multiples
    [0, dtheta, 2 dtheta, ...] below [theta_max + 1e-12] and the phi samples
    the multiples of [dphi] below [360 + 1e-12], so [theta_max] and 360 are
    themselves samples when the step divides them: phi ranges over the closed
    interval [[0, 360]].  The grid is filled over the Cartesian product, and
    the cell [(i, j)] holds the contrast of its own [(thetas[i], phis[j])]. *)
Theorem contrast_grid_samples
    (ips : IpsModule) (stack : list element) (c1 c2 : vec3) (lam_nm : R)
    (disp_mode : string) (theta_max dtheta dphi : R) :
  0 < dtheta -> 0 < dphi ->
  exists nt np : nat,
    let thetas := map (fun i : nat => INR i * dtheta) (seq 0 nt) in
    let phis := map (fun j : nat => INR j * dphi) (seq 0 np) in
    (forall i : nat, (i < nt)%nat <-> INR i * dtheta < theta_max + 1e-12) /\
    (forall j : nat, (j < np)%nat <-> INR j * dphi < 360 + 1e-12) /\
    (forall n : nat, INR n * dtheta = theta_max -> In theta_max thetas) /\
    (forall n : nat, INR n * dphi = 360 -> In 360 phis) /\
    (forall ph : R, In ph phis -> 0 <= ph < 360 + 1e-12) /\
    (forall th : R, In th thetas -> 0 <= th < theta_max + 1e-12) /\
    run_dispersion_updated.compute_CR_grid_W ips stack c1 c2 disp_mode theta_max
      dtheta dphi
    = (do CR <- run_dispersion_updated.fill_grid
                  (fun th ph => run_dispersion_updated.CR_W ips th ph stack c1 c2
                                  disp_mode) thetas phis;
       Ok (thetas, phis, CR)) /\
    run_dispersion_updated.compute_CR_grid_mono ips stack c1 c2 lam_nm disp_mode
      theta_max dtheta dphi
    = (do CR <- run_dispersion_updated.fill_grid
                  (fun th ph => run_dispersion_updated.CR_mono ips th ph stack c1 c2
                                  lam_nm disp_mode) thetas phis;
       Ok (thetas, phis, CR)) /\
    (forall (cell : R -> R -> result R) (CR : list (list R)),
       run_dispersion_updated.fill_grid cell thetas phis = Ok CR ->
       length CR = length thetas /\
       forall (i j : nat) (th ph : R),
         thetas !! i = Some th -> phis !! j = Some ph ->
         exists row v, CR !! i = Some row /\ length row = length phis /\
                       row !! j = Some v /\ cell th ph = Ok v).
Proof.
  intros Ht Hp.
  destruct (np_arange_from_zero (theta_max + 1e-12) dtheta Ht) as (nt & Hat & Hnt).
  destruct (np_arange_from_zero (360 + 1e-12) dphi Hp) as (np & Hap & Hnp).
  exists nt, np. cbv zeta.
  split; [exact Hnt |]. split; [exact Hnp |].
  assert (Hpos : forall (i : nat) (s : R), 0 < s -> 0 <= INR i * s).
  { intros i s Hs. pose proof (pos_INR i). nra. }
  split; [intros n Hn; apply In_multiples; exists n; split; [apply Hnt; lra | lra] |].
  split; [intros n Hn; apply In_multiples; exists n; split; [apply Hnp; lra | lra] |].
  split.
  { intros ph Hin. apply In_multiples in Hin. destruct Hin as (j & Hj & ->).
    split; [apply Hpos, Hp | apply Hnp, Hj]. }
  split.
  { intros th Hin. apply In_multiples in Hin. destruct Hin as (j & Hj & ->).
    split; [apply Hpos, Ht | apply Hnt, Hj]. }
  split.
  { unfold run_dispersion_updated.compute_CR_grid_W. rewrite Hat, Hap. reflexivity. }
  split.
  { unfold run_dispersion_updated.compute_CR_grid_mono. rewrite Hat, Hap. reflexivity. }
  intros cell CR Hfill. apply (fill_grid_cells _ _ _ _ Hfill).
Qed.

Lemma contrast_grid_samples_witness :
  0 < 5 /\ 0 < 5 /\
  exists nt np : nat,
    (forall i : nat, (i < nt)%nat <-> INR i * 5 < 60 + 1e-12) /\
    (forall j : nat, (j < np)%nat <-> INR j * 5 < 360 + 1e-12).
Proof.
  assert (H5 : 0 < 5) by lra.
  split; [exact H5 |]. split; [exact H5 |].
  destruct (contrast_grid_samples ips_spec [] x_hat y_hat 546 "flat" 60 5 5 H5 H5)
    as (nt & np & Hnt & Hnp & _).
  exists nt, np. split; [exact Hnt | exact Hnp].
Defined.

Lemma fill_grid_total (cell : R -> R -> result R) (g : R -> R -> R)
    (thetas phis : list R) :
  (forall th ph, cell th ph = Ok (g th ph)) ->
  run_dispersion_updated.fill_grid cell thetas phis
  = Ok (map (fun th => map (fun ph => g th ph) phis) thetas).
Proof.
  intros H. unfold run_dispersion_updated.fill_grid.
  apply mapM_total. intros th. apply mapM_total. intros ph. apply H.
Qed.

(** C9, counterexample: with the default steps the grid of an empty stack
    has the azimuth sample 360, which is outside the half-open range
    [[0, 360)]. *)
Lemma contrast_grid_includes_360 :
  exists (thetas phis : list R) (CR : list (list R)),
    run_dispersion_updated.compute_CR_grid_mono ips_spec [] x_hat y_hat 546 "flat"
      60 5 5 = Ok (thetas, phis, CR) /\
    In 360 phis /\ ~ (0 <= 360 < 360).
Proof.
  destruct (np_arange_from_zero (60 + 1e-12) 5 ltac:(lra)) as (nt & Hat & Hnt).
  destruct (np_arange_from_zero (360 + 1e-12) 5 ltac:(lra)) as (np & Hap & Hnp).
  eexists _, _, _. split; [| split].
  - unfold run_dispersion_updated.compute_CR_grid_mono. rewrite Hat, Hap. cbn [bind].
    rewrite (fill_grid_total _
               (fun th ph => CR_from_Tleak ips_spec
                  (vdot (o_axis_Otype ips_spec (k_hat ips_spec th ph) y_hat)
                        (o_axis_Otype ips_spec (k_hat ips_spec th ph) x_hat) ^ 2))).
    + reflexivity.
    + intros th ph. unfold run_dispersion_updated.CR_mono.
      rewrite mono_leak_empty. reflexivity.
  - apply In_multiples. exists 72%nat. split.
    + apply Hnp. simpl. lra.
    + simpl. lra.
  - lra.
Qed.

(** * Further properties of the three scripts *)

(** ** [_normalize] and the errors of [transverse_basis] *)

(** X1: [_normalize] divides by [max(|v|, 1e-15)]: the result has norm
    [|v| / max(|v|, 1e-15)], at most 1, equal to 1 exactly when
    [|v| >= 1e-15]; the zero vector is returned unchanged, without a
    division by zero. *)
Theorem _normalize_norm (v : vec3) :
  vnorm (ips_stokes_trace._normalize v) = vnorm v / Rmax (vnorm v) 1e-15 /\
  vnorm (ips_stokes_trace._normalize v) <= 1 /\
  (vnorm (ips_stokes_trace._normalize v) = 1 <-> 1e-15 <= vnorm v) /\
  ips_stokes_trace._normalize (mkV 0 0 0) = mkV 0 0 0.
Proof.
  assert (Hn : vnorm (ips_stokes_trace._normalize v) = vnorm v / Rmax (vnorm v) 1e-15).
  { unfold ips_stokes_trace._normalize. rewrite py_max_Rmax.
    assert (Hm : 1e-15 <= Rmax (vnorm v) 1e-15) by apply Rmax_r.
    set (m := Rmax (vnorm v) 1e-15) in *.
    pose proof (vnorm_nonneg v) as Hv. pose proof (vnorm_sq v) as Hs.
    unfold vnorm at 1.
    replace (vdot (vdiv v m) (vdiv v m)) with ((vnorm v / m) * (vnorm v / m)).
    - apply sqrt_square. apply Rmult_le_pos; [exact Hv |].
      left. apply Rinv_0_lt_compat. lra.
    - rewrite vdot_vdiv, <- Hs. field. lra. }
  pose proof (vnorm_nonneg v) as Hv.
  assert (Hl : vnorm v <= Rmax (vnorm v) 1e-15) by apply Rmax_l.
  assert (Hm : 1e-15 <= Rmax (vnorm v) 1e-15) by apply Rmax_r.
  split; [exact Hn |]. split; [| split].
  - rewrite Hn. apply Rmult_le_reg_r with (Rmax (vnorm v) 1e-15); [lra |].
    unfold Rdiv. rewrite Rmult_assoc, Rinv_l by lra. lra.
  - split.
    + intros H1. rewrite Hn in H1.
      apply (f_equal (fun x => x * Rmax (vnorm v) 1e-15)) in H1.
      unfold Rdiv in H1. rewrite Rmult_assoc, Rinv_l in H1 by lra.
      rewrite Rmult_1_r, Rmult_1_l in H1. lra.
    + intros H. apply _normalize_large, H.
  - unfold ips_stokes_trace._normalize, vdiv, Rdiv. apply vec3_eq; simpl; ring.
Qed.

(** X2: [transverse_basis] raises [ValueError] when the "pol_in" policy
    comes without [c1], when "pol_out" comes without [c2], and for every
    policy name other than the three known ones, whatever the direction. *)
Theorem transverse_basis_errors (ips : IpsModule) (k : vec3) (basis : string)
    (c1 c2 : option vec3) :
  ips_stokes_trace.transverse_basis ips k "pol_in" None c2
    = Raise (ValueError "basis='pol_in' requires c1") /\
  ips_stokes_trace.transverse_basis ips k "pol_out" c1 None
    = Raise (ValueError "basis='pol_out' requires c2") /\
  (basis <> "lab" -> basis <> "pol_in" -> basis <> "pol_out" ->
   ips_stokes_trace.transverse_basis ips k basis c1 c2
     = Raise (ValueError "basis must be one of: lab, pol_in, pol_out")).
Proof.
  unfold ips_stokes_trace.transverse_basis. split; [| split].
  - rewrite bool_decide_eq_false_2 by discriminate.
    rewrite bool_decide_eq_true_2 by reflexivity. reflexivity.
  - rewrite !bool_decide_eq_false_2 by discriminate.
    rewrite bool_decide_eq_true_2 by reflexivity. reflexivity.
  - intros H1 H2 H3. rewrite !bool_decide_eq_false_2 by assumption. reflexivity.
Qed.

Lemma transverse_basis_errors_witness :
  "circular" <> "lab" /\ "circular" <> "pol_in" /\ "circular" <> "pol_out" /\
  ips_stokes_trace.transverse_basis ips_spec z_hat "circular" None None
    = Raise (ValueError "basis must be one of: lab, pol_in, pol_out").
Proof.
  assert (H1 : "circular" <> "lab") by discriminate.
  assert (H2 : "circular" <> "pol_in") by discriminate.
  assert (H3 : "circular" <> "pol_out") by discriminate.
  split; [exact H1 |]. split; [exact H2 |]. split; [exact H3 |].
  exact (proj2 (proj2 (transverse_basis_errors ips_spec z_hat "circular" None None))
           H1 H2 H3).
Defined.

(** ** The shape of the Stokes trace *)

Lemma point_of_label (lab key : string) (S : R * R * R * R) :
  ips_stokes_trace.label (ips_stokes_trace.point_of lab key S) = lab /\
  ips_stokes_trace.wl_key (ips_stokes_trace.point_of lab key S) = key.
Proof. destruct S as [[[a b] c] d]. split; reflexivity. Qed.

Lemma trace_elements_stages ips th ph k u v key lam stack :
  forall i E ps,
  ips_stokes_trace.trace_elements ips th ph k u v key lam i E stack = Ok ps ->
  length ps = length stack /\
  forall (j : nat) (el : element),
    stack !! j = Some el ->
    exists p, ps !! j = Some p /\
      ips_stokes_trace.label p = ips_stokes_trace.element_label (i + j) el /\
      ips_stokes_trace.wl_key p = key.
Proof.
  induction stack as [|el rest IH]; intros i E ps Hrun; simpl in Hrun.
  - injection Hrun as <-. split; [reflexivity |]. intros j el Hj. discriminate.
  - destruct (_ne_no_for_wl ips el key) as [no ne].
    destruct (element_Gamma ips th ph lam el no ne) as [G|e]; simpl in Hrun;
      [| discriminate].
    destruct (ips_stokes_trace.trace_elements ips th ph k u v key lam (S i)
                (apply_retarder ips k el G E) rest) as [ps'|e] eqn:Hrest;
      simpl in Hrun; [| discriminate].
    injection Hrun as <-. destruct (IH _ _ _ Hrest) as [Hlen Hst].
    split; [simpl; congruence |].
    intros [|j] el' Hj; simpl in Hj.
    + injection Hj as <-.
      exists (ips_stokes_trace.point_of (ips_stokes_trace.element_label i el) key
                (ips_stokes_trace.stokes_from_E (apply_retarder ips k el G E) k u v)).
      split; [reflexivity |].
      rewrite Nat.add_0_r. apply point_of_label.
    + destruct (Hst j el' Hj) as (p & Hp & Hl & Hk).
      exists p. split; [exact Hp |]. split; [| exact Hk].
      rewrite Hl. replace (i + S j)%nat with (S i + j)%nat by lia. reflexivity.
Qed.

Lemma trace_wavelengths_groups ips th ph k u v E0 stack keys :
  forall ps,
  ips_stokes_trace.trace_wavelengths ips th ph k u v E0 stack keys = Ok ps ->
  exists groups : list (list ips_stokes_trace.StokesPoint),
    ps = concat groups /\ Forall2 (element_stages stack) keys groups.
Proof.
  induction keys as [|key rest IH]; intros ps Hrun; simpl in Hrun.
  - injection Hrun as <-. exists []. split; [reflexivity | constructor].
  - destruct (ips_stokes_trace.trace_elements ips th ph k u v key (wl_m ips key)
                0%nat E0 stack) as [qs|e] eqn:Hq; simpl in Hrun; [| discriminate].
    destruct (ips_stokes_trace.trace_wavelengths ips th ph k u v E0 stack rest)
      as [rs|e] eqn:Hr; simpl in Hrun; [| discriminate].
    injection Hrun as <-. destruct (IH rs eq_refl) as (groups & -> & Hg).
    exists (qs :: groups). split; [reflexivity |]. constructor; [| exact Hg].
    apply (trace_elements_stages _ _ _ _ _ _ _ _ _ _ _ _ Hq).
Qed.

Lemma concat_stage_length (stack : list element) (keys : list string)
    (groups : list (list ips_stokes_trace.StokesPoint)) :
  Forall2 (element_stages stack) keys groups ->
  length (concat groups) = (length keys * length stack)%nat.
Proof.
  induction 1 as [|key ps keys groups [Hlen _] _ IH]; simpl; [reflexivity |].
  rewrite length_app, IH, Hlen. reflexivity.
Qed.

(** X3: a Stokes trace that returns has one "POL_in" point per wavelength
    key, in key order and all with the same Stokes quadruple, followed for
    each key in turn by one point per stack element, labelled [el#i_type];
    its length is [len(wl_keys) * (1 + len(stack))]. *)
Theorem trace_shape (ips : IpsModule) (theta_deg phi_deg : R) (stack : list element)
    (c1 c2 : vec3) (basis : string) (wl_keys : list string)
    (pts : list ips_stokes_trace.StokesPoint) :
  ips_stokes_trace.trace_stokes_per_wavelength ips theta_deg phi_deg stack c1 c2 basis
    wl_keys = Ok pts ->
  exists (S : R * R * R * R) (groups : list (list ips_stokes_trace.StokesPoint)),
    pts = map (fun key => ips_stokes_trace.point_of "POL_in" key S) wl_keys
          ++ concat groups /\
    Forall2 (element_stages stack) wl_keys groups /\
    length pts = (length wl_keys * (1 + length stack))%nat.
Proof.
  unfold ips_stokes_trace.trace_stokes_per_wavelength. intros Hrun.
  destruct (ips_stokes_trace.transverse_basis ips (k_hat ips theta_deg phi_deg) basis
              (Some c1) (Some c2)) as [[u v]|e]; cbn [bind] in Hrun; [| discriminate].
  destruct (ips_stokes_trace.trace_wavelengths ips theta_deg phi_deg
              (k_hat ips theta_deg phi_deg) u v
              (astype_complex (o_axis_Otype ips (k_hat ips theta_deg phi_deg) c1))
              stack wl_keys) as [rest|e] eqn:Hrest; cbn [bind] in Hrun; [| discriminate].
  injection Hrun as <-.
  destruct (trace_wavelengths_groups _ _ _ _ _ _ _ _ _ _ Hrest) as (groups & -> & Hg).
  exists (ips_stokes_trace.stokes_from_E
            (astype_complex (o_axis_Otype ips (k_hat ips theta_deg phi_deg) c1))
            (k_hat ips theta_deg phi_deg) u v), groups.
  split; [reflexivity |]. split; [exact Hg |].
  rewrite length_app, length_map, (concat_stage_length _ _ _ Hg). lia.
Qed.

Lemma trace_shape_witness :
  exists pts,
    ips_stokes_trace.trace_stokes_per_wavelength ips_spec 0 0 [element_A] x_hat y_hat
      "lab" ["B"; "G"] = Ok pts /\
    length pts = 4%nat.
Proof.
  destruct (transverse_basis_supplied ips_spec (k_hat ips_spec 0 0) "lab" x_hat y_hat
              (or_introl eq_refl)) as [[u v] Hb].
  assert (Hrun : exists pts,
    ips_stokes_trace.trace_stokes_per_wavelength ips_spec 0 0 [element_A] x_hat y_hat
      "lab" ["B"; "G"] = Ok pts).
  { unfold ips_stokes_trace.trace_stokes_per_wavelength. rewrite Hb. cbn [bind].
    pose proof (trace_wavelengths_outcome ips_spec 0 0 (k_hat ips_spec 0 0) u v
                  (astype_complex (o_axis_Otype ips_spec (k_hat ips_spec 0 0) x_hat))
                  [element_A] ["B"; "G"] ltac:(discriminate)) as H.
    change (first_unknown [element_A]) with (@None element) in H.
    destruct H as [ps ->]. cbn [bind]. eauto. }
  destruct Hrun as [pts Hrun]. exists pts. split; [exact Hrun |].
  destruct (trace_shape ips_spec 0 0 [element_A] x_hat y_hat "lab" ["B"; "G"] pts Hrun)
    as (S & groups & _ & _ & Hlen).
  exact Hlen.
Defined.

(** ** Grouping by stage label in the white trace *)

Lemma group_labels_spec (pts : list ips_stokes_trace.StokesPoint) :
  forall labels : list string,
  NoDup labels ->
  NoDup (ips_stokes_trace.group_labels labels pts) /\
  (forall l : string,
     In l (ips_stokes_trace.group_labels labels pts) <->
     In l labels \/ exists p, In p pts /\ ips_stokes_trace.label p = l) /\
  exists added, ips_stokes_trace.group_labels labels pts = labels ++ added.
Proof.
  induction pts as [|p rest IH]; intros labels Hnd; simpl.
  - split; [exact Hnd |]. split.
    + intros l. split; [tauto |]. intros [H | (q & [] & _)]. exact H.
    + exists []. rewrite app_nil_r. reflexivity.
  - case_bool_decide as Hin.
    + destruct (IH labels Hnd) as (H1 & H2 & added & H3).
      split; [exact H1 |]. split; [| exists added; exact H3].
      intros l. rewrite H2. split.
      * intros [H | (q & Hq & Hl)]; [left; exact H |].
        right. exists q. split; [right; exact Hq | exact Hl].
      * intros [H | (q & [<- | Hq] & Hl)].
        -- left; exact H.
        -- left. rewrite <- Hl. apply list_elem_of_In, Hin.
        -- right. exists q. split; assumption.
    + assert (Hnd' : NoDup (labels ++ [ips_stokes_trace.label p])).
      { apply NoDup_app. split; [exact Hnd |]. split.
        - intros x Hx Hx'. apply list_elem_of_singleton in Hx'. subst x.
          apply Hin, Hx.
        - apply NoDup_singleton. }
      destruct (IH _ Hnd') as (H1 & H2 & added & H3).
      split; [exact H1 |]. split.
      * intros l. rewrite H2, in_app_iff. simpl. split.
        -- intros [[H | [<- | []]] | (q & Hq & Hl)].
           ++ left; exact H.
           ++ right. exists p. split; [left; reflexivity | reflexivity].
           ++ right. exists q. split; [right; exact Hq | exact Hl].
        -- intros [H | (q & [<- | Hq] & Hl)].
           ++ left; left; exact H.
           ++ left; right; left. exact Hl.
           ++ right. exists q. split; assumption.
      * exists (ips_stokes_trace.label p :: added).
        rewrite H3, <- app_assoc. reflexivity.
Qed.

(** X4: the grouping loop of the white trace lists every label that occurs
    among the points exactly once. *)
Theorem group_labels_distinct (pts : list ips_stokes_trace.StokesPoint) :
  NoDup (ips_stokes_trace.group_labels [] pts) /\
  forall l : string,
    In l (ips_stokes_trace.group_labels [] pts) <->
    exists p, In p pts /\ ips_stokes_trace.label p = l.
Proof.
  destruct (group_labels_spec pts [] (NoDup_nil_2)) as (H1 & H2 & _).
  split; [exact H1 |]. intros l. rewrite H2. simpl. tauto.
Qed.

Lemma stokes_sums_intensity (w : gmap string R) (lab : string)
    (pts : list ips_stokes_trace.StokesPoint) :
  forall A B C D : R,
  exists B' C' D' : R,
    ips_stokes_trace.stokes_sums w lab (A, B, C, D) pts
    = (A + labelled_intensity w lab pts, B', C', D').
Proof.
  induction pts as [|p rest IH]; intros A B C D; simpl.
  - exists B, C, D. do 3 f_equal. ring.
  - destruct (bool_decide_reflect (ips_stokes_trace.label p = lab)) as [Hl | Hl].
    + rewrite bool_decide_eq_false_2 by (intros H; apply H, Hl).
      destruct (IH (A + default 1 (w !! ips_stokes_trace.wl_key p)
                          * ips_stokes_trace.S0 p)
                  (B + default 1 (w !! ips_stokes_trace.wl_key p)
                          * ips_stokes_trace.S1 p)
                  (C + default 1 (w !! ips_stokes_trace.wl_key p)
                          * ips_stokes_trace.S2 p)
                  (D + default 1 (w !! ips_stokes_trace.wl_key p)
                          * ips_stokes_trace.S3 p)) as (B' & C' & D' & ->).
      exists B', C', D'. do 3 f_equal. ring.
    + rewrite bool_decide_eq_true_2 by exact Hl. apply IH.
Qed.

(** X5: a white trace that returns has one row per distinct stage label, in
    first-seen order; the [S0_sum] of a row is the weighted sum of [S0] over
    the points of that label, a wavelength key without a weight counting
    as 1. *)
Theorem white_rows_by_label (ips : IpsModule) (theta_deg phi_deg : R)
    (stack : list element) (c1 c2 : vec3) (basis : string) (wl_keys : list string)
    (wl_weights : gmap string R) (rows : list ips_stokes_trace.WhiteRow) :
  ips_stokes_trace.trace_stokes_white ips theta_deg phi_deg stack c1 c2 basis wl_keys
    (Some wl_weights) = Ok rows ->
  exists pts,
    ips_stokes_trace.trace_stokes_per_wavelength ips theta_deg phi_deg stack c1 c2
      basis wl_keys = Ok pts /\
    map ips_stokes_trace.w_label rows = ips_stokes_trace.group_labels [] pts /\
    NoDup (map ips_stokes_trace.w_label rows) /\
    Forall (fun r => ips_stokes_trace.w_S0_sum r
                     = labelled_intensity wl_weights (ips_stokes_trace.w_label r) pts)
      rows.
Proof.
  intros Hrun. rewrite white_trace_closed in Hrun.
  destruct (ips_stokes_trace.trace_stokes_per_wavelength ips theta_deg phi_deg stack
              c1 c2 basis wl_keys) as [pts|e]; cbn [bind] in Hrun; [| discriminate].
  injection Hrun as <-. exists pts. split; [reflexivity |].
  assert (Hrow : forall lab,
            ips_stokes_trace.w_label (white_row_closed wl_weights pts lab) = lab /\
            ips_stokes_trace.w_S0_sum (white_row_closed wl_weights pts lab)
            = labelled_intensity wl_weights lab pts).
  { intros lab. unfold white_row_closed.
    destruct (stokes_sums_intensity wl_weights lab pts 0 0 0 0) as (B & C & D & ->).
    cbn [ips_stokes_trace.w_label ips_stokes_trace.w_S0_sum].
    split; [reflexivity | ring]. }
  assert (Hlab : map ips_stokes_trace.w_label
                   (map (white_row_closed wl_weights pts)
                      (ips_stokes_trace.group_labels [] pts))
                 = ips_stokes_trace.group_labels [] pts).
  { rewrite map_map. rewrite <- (map_id (ips_stokes_trace.group_labels [] pts)) at 2.
    apply map_ext. intros lab. apply Hrow. }
  split; [exact Hlab |]. split.
  - rewrite Hlab. apply group_labels_distinct.
  - apply Forall_forall. intros r Hr. apply list_elem_of_In, in_map_iff in Hr.
    destruct Hr as (lab & <- & _). destruct (Hrow lab) as [-> ->]. reflexivity.
Qed.

Lemma white_rows_by_label_witness :
  exists rows,
    ips_stokes_trace.trace_stokes_white ips_spec 0 0 [] x_hat y_hat "lab" [] (Some ∅)
      = Ok rows /\
    NoDup (map ips_stokes_trace.w_label rows).
Proof.
  assert (Hrun : ips_stokes_trace.trace_stokes_white ips_spec 0 0 [] x_hat y_hat "lab"
                   [] (Some ∅) = Ok []).
  { rewrite white_trace_closed.
    unfold ips_stokes_trace.trace_stokes_per_wavelength.
    destruct (transverse_basis_supplied ips_spec (k_hat ips_spec 0 0) "lab" x_hat y_hat
                (or_introl eq_refl)) as [[u v] ->].
    reflexivity. }
  exists []. split; [exact Hrun |].
  destruct (white_rows_by_label ips_spec 0 0 [] x_hat y_hat "lab" [] ∅ [] Hrun)
    as (pts & _ & _ & Hnd & _).
  exact Hnd.
Defined.

(** ** Dispersion modes *)

Lemma _dn_scale_table_unknown ips mode :
  ~ known_mode mode ->
  run_dispersion_updated._dn_scale_table ips mode
  = Raise (ValueError ("Unknown dispersion mode: " +:+ mode)).
Proof.
  unfold known_mode, run_dispersion_updated._dn_scale_table. intros H.
  repeat case_bool_decide; try reflexivity; exfalso; tauto.
Qed.

(** X6: a dispersion mode other than "flat", "matched", "mismatched" and
    "current" makes [_dn_scale_table] and [ne_no_for_lambda] raise
    [ValueError]; the monochromatic leakage then raises it at the first
    element, before that element's type is looked at, while an empty stack
    never consults the mode and returns its leakage. *)
Theorem unknown_dispersion_mode (ips : IpsModule) (mode : string) :
  ~ known_mode mode ->
  let err := ValueError ("Unknown dispersion mode: " +:+ mode) in
  run_dispersion_updated._dn_scale_table ips mode = Raise err /\
  (forall (el : element) (lam_nm : R),
     run_dispersion_updated.ne_no_for_lambda ips el lam_nm mode = Raise err) /\
  (forall (theta_deg phi_deg : R) (el : element) (rest : list element)
          (c1 c2 : vec3) (lam_nm : R),
     run_dispersion_updated.Tleak_stack_mono ips theta_deg phi_deg (el :: rest) c1 c2
       lam_nm mode = Raise err) /\
  (forall (theta_deg phi_deg : R) (c1 c2 : vec3) (lam_nm : R),
     exists T,
       run_dispersion_updated.Tleak_stack_mono ips theta_deg phi_deg [] c1 c2 lam_nm
         mode = Ok T).
Proof.
  intros Hm err.
  assert (Hne : forall el lam_nm,
            run_dispersion_updated.ne_no_for_lambda ips el lam_nm mode = Raise err).
  { intros el lam_nm. unfold run_dispersion_updated.ne_no_for_lambda.
    rewrite bool_decide_eq_false_2 by (intros ->; apply Hm; left; reflexivity).
    cbv zeta. rewrite (_dn_scale_table_unknown ips mode Hm). reflexivity. }
  split; [apply _dn_scale_table_unknown, Hm |]. split; [exact Hne |]. split.
  - intros th ph el rest c1 c2 lam_nm.
    unfold run_dispersion_updated.Tleak_stack_mono.
    cbn [run_dispersion_updated.propagate]. rewrite Hne. reflexivity.
  - intros th ph c1 c2 lam_nm. rewrite mono_leak_empty. eauto.
Qed.

Lemma unknown_dispersion_mode_witness :
  ~ known_mode "cauchy" /\
  run_dispersion_updated.Tleak_stack_mono ips_spec 0 0 [element_X] x_hat y_hat 546
    "cauchy" = Raise (ValueError "Unknown dispersion mode: cauchy").
Proof.
  assert (Hm : ~ known_mode "cauchy").
  { unfold known_mode. intros [H | [H | [H | H]]]; discriminate. }
  split; [exact Hm |].
  exact (proj1 (proj2 (proj2 (unknown_dispersion_mode ips_spec "cauchy" Hm)))
           0 0 element_X [] x_hat y_hat 546).
Defined.

Lemma element_Gamma_ext ips th ph lam el no ne ne' :
  ne = ne' ->
  element_Gamma ips th ph lam el no ne = element_Gamma ips th ph lam el no ne'.
Proof. intros ->. reflexivity. Qed.

Lemma flat_propagate_agrees ips th ph k key lam_nm lam stack :
  (forall el, _ne_no_for_wl ips el key = (el_no el, el_ne el)) ->
  forall E,
  run_dispersion_updated.propagate ips th ph k lam_nm lam "flat" E stack
  = run_rot_AC.propagate ips th ph k key lam E stack.
Proof.
  intros Hnn. induction stack as [|el rest IH]; intros E;
    cbn [run_dispersion_updated.propagate run_rot_AC.propagate]; [reflexivity |].
  rewrite Hnn.
  unfold run_dispersion_updated.ne_no_for_lambda.
  rewrite bool_decide_eq_true_2 by reflexivity. cbn [bind].
  rewrite (element_Gamma_ext ips th ph lam el (el_no el)
             (el_no el + (el_ne el - el_no el)) (el_ne el)) by ring.
  destruct (element_Gamma ips th ph lam el (el_no el) (el_ne el)) as [G|e];
    simpl; [apply IH | reflexivity].
Qed.

(** X7: when the engine keeps an element's [(no, ne)] at a wavelength key
    and that key's wavelength is [lam_nm] nanometres, the monochromatic
    leakage in mode "flat" at [lam_nm] is the single-wavelength leakage at
    the key, errors included. *)
Theorem flat_mono_is_single_lambda (ips : IpsModule) (theta_deg phi_deg : R)
    (stack : list element) (c1 c2 : vec3) (key : string) (lam_nm : R) :
  (forall el, _ne_no_for_wl ips el key = (el_no el, el_ne el)) ->
  wl_m ips key = lam_nm * 1e-9 ->
  run_dispersion_updated.Tleak_stack_mono ips theta_deg phi_deg stack c1 c2 lam_nm
    "flat"
  = run_rot_AC.Tleak_single_lambda ips theta_deg phi_deg stack c1 c2 key.
Proof.
  intros Hnn Hlam.
  unfold run_dispersion_updated.Tleak_stack_mono, run_rot_AC.Tleak_single_lambda.
  cbv zeta. rewrite Hlam.
  rewrite (flat_propagate_agrees ips theta_deg phi_deg _ key lam_nm _ stack Hnn).
  reflexivity.
Qed.

Lemma flat_mono_is_single_lambda_witness :
  (forall el, _ne_no_for_wl ips_spec el "G" = (el_no el, el_ne el)) /\
  wl_m ips_spec "G" = 546 * 1e-9 /\
  run_dispersion_updated.Tleak_stack_mono ips_spec 30 45 [element_A; element_X]
    x_hat y_hat 546 "flat"
  = run_rot_AC.Tleak_single_lambda ips_spec 30 45 [element_A; element_X] x_hat y_hat "G".
Proof.
  assert (Hnn : forall el, _ne_no_for_wl ips_spec el "G" = (el_no el, el_ne el))
    by (intros el; reflexivity).
  assert (Hlam : wl_m ips_spec "G" = 546 * 1e-9) by (cbn [wl_m ips_spec]; lra).
  split; [exact Hnn |]. split; [exact Hlam |].
  exact (flat_mono_is_single_lambda ips_spec 30 45 [element_A; element_X] x_hat y_hat
           "G" 546 Hnn Hlam).
Defined.

(** ** Edge cases of the white leakage *)

Lemma white_sums_app mono nm w pre post :
  forall Tsum wsum,
  run_dispersion_updated.white_sums mono nm w Tsum wsum (pre ++ post)
  = (do sums <- run_dispersion_updated.white_sums mono nm w Tsum wsum pre;
     run_dispersion_updated.white_sums mono nm w (fst sums) (snd sums) post).
Proof.
  induction pre as [|k pre IH]; intros Tsum wsum; simpl; [reflexivity |].
  destruct (nm !! k) as [lam|]; simpl; [| reflexivity].
  destruct (mono lam) as [T|e]; simpl; [apply IH | reflexivity].
Qed.

(** X8: with no wavelength key the white leakage is 0; a key that the
    wavelength map lacks raises [KeyError] for that key once the keys before
    it have been evaluated, whatever follows it. *)
Theorem Tleak_stack_W_keys (ips : IpsModule) (theta_deg phi_deg : R)
    (stack : list element) (c1 c2 : vec3) (disp_mode : string)
    (wl_nm_map wl_weights : gmap string R) :
  run_dispersion_updated.Tleak_stack_W ips theta_deg phi_deg stack c1 c2 disp_mode []
    wl_nm_map wl_weights = Ok 0 /\
  (forall (pre post : list string) (k : string) (Ts : list R),
     leakages_at
       (fun lam_nm => run_dispersion_updated.Tleak_stack_mono ips theta_deg phi_deg
                        stack c1 c2 lam_nm disp_mode)
       wl_nm_map pre Ts ->
     wl_nm_map !! k = None ->
     run_dispersion_updated.Tleak_stack_W ips theta_deg phi_deg stack c1 c2 disp_mode
       (pre ++ k :: post) wl_nm_map wl_weights = Raise (KeyError k)).
Proof.
  split.
  - unfold run_dispersion_updated.Tleak_stack_W. cbn [run_dispersion_updated.white_sums bind].
    rewrite py_div_floor by lra. f_equal. unfold Rdiv. ring.
  - intros pre post k Ts HT Hk.
    unfold run_dispersion_updated.Tleak_stack_W.
    rewrite white_sums_app, (white_sums_spec _ _ wl_weights _ _ HT).
    cbn [bind fst snd run_dispersion_updated.white_sums]. rewrite Hk. reflexivity.
Qed.

Lemma Tleak_stack_W_keys_witness :
  leakages_at
    (fun lam_nm => run_dispersion_updated.Tleak_stack_mono ips_spec 0 0 [] x_hat x_hat
                     lam_nm "flat")
    green_only ["G"] [1] /\
  green_only !! "R" = None /\
  run_dispersion_updated.Tleak_stack_W ips_spec 0 0 [] x_hat x_hat "flat"
    (["G"] ++ "R" :: ["B"]) green_only example_weights = Raise (KeyError "R").
Proof.
  assert (HT : leakages_at
    (fun lam_nm => run_dispersion_updated.Tleak_stack_mono ips_spec 0 0 [] x_hat x_hat
                     lam_nm "flat")
    green_only ["G"] [1]).
  { repeat constructor. exists 546.
    split; [reflexivity | apply mono_leak_normal_parallel]. }
  assert (Hk : green_only !! "R" = None) by reflexivity.
  split; [exact HT |]. split; [exact Hk |].
  exact (proj2 (Tleak_stack_W_keys ips_spec 0 0 [] x_hat x_hat "flat" green_only
                  example_weights) ["G"] ["B"] "R" [1] HT Hk).
Defined.

(** ** The interpolated scale factor stays within the table *)

(** X9: at every wavelength the interpolated scale factor lies between the
    smallest and the largest of the three per-primary factors. *)
Theorem _interp_scale_bounded (lam_nm : R) (d : gmap string R) :
  let sB := default 1 (d !! "B") in
  let sG := default 1 (d !! "G") in
  let sR := default 1 (d !! "R") in
  Rmin sB (Rmin sG sR) <= run_dispersion_updated._interp_scale lam_nm d
    <= Rmax sB (Rmax sG sR).
Proof.
  intros sB sG sR. rewrite _interp_scale_piecewise. fold sB sG sR.
  pose proof (Rmin_l sB (Rmin sG sR)). pose proof (Rmin_r sB (Rmin sG sR)).
  pose proof (Rmin_l sG sR). pose proof (Rmin_r sG sR).
  pose proof (Rmax_l sB (Rmax sG sR)). pose proof (Rmax_r sB (Rmax sG sR)).
  pose proof (Rmax_l sG sR). pose proof (Rmax_r sG sR).
  set (lo := Rmin sB (Rmin sG sR)) in *. set (hi := Rmax sB (Rmax sG sR)) in *.
  assert (HB : lo <= sB <= hi) by lra.
  assert (HG : lo <= sG <= hi) by lra.
  assert (HR : lo <= sR <= hi) by lra.
  unfold piecewise_scale.
  destruct (Rle_dec lam_nm 450) as [L1 | L1]; [exact HB |].
  destruct (Rle_dec lam_nm 546) as [L2 | L2].
  - replace (sB + (sG - sB) * (lam_nm - 450) / (546 - 450))
      with (sB * ((546 - lam_nm) / 96) + sG * ((lam_nm - 450) / 96)) by field.
    set (t := (lam_nm - 450) / 96).
    replace ((546 - lam_nm) / 96) with (1 - t) by (unfold t; field).
    assert (Ht : 0 <= t <= 1) by (unfold t; lra).
    split; nra.
  - destruct (Rle_dec lam_nm 610) as [L3 | L3]; [| exact HR].
    replace (sG + (sR - sG) * (lam_nm - 546) / (610 - 546))
      with (sG * ((610 - lam_nm) / 64) + sR * ((lam_nm - 546) / 64)) by field.
    set (t := (lam_nm - 546) / 64).
    replace ((610 - lam_nm) / 64) with (1 - t) by (unfold t; field).
    assert (Ht : 0 <= t <= 1) by (unfold t; lra).
    split; nra.
Qed.
